(** * Miunave backend: identity and playlist service (src/index.js)

    A shallow embedding of the Express application of [src/index.js]:
    the three tables of its schema, the SQL statements its handlers
    prepare, the authentication middleware and the eight routes.

    Three libraries are called by the handlers and are not part of the
    repository; they are modelled by what they do on the values the
    handlers pass them:
    - the SQL engine behind [db.prepare(...)]: each statement is given
      the meaning SQLite gives its text under the declared schema;
    - [bcrypt]: an ideal salted hash of the bytes bcrypt reads, the
      first 72 of the password (a digest remembers those bytes, and
      [compare] holds exactly for a password with the same bytes);
    - [jsonwebtoken]: an ideal signature (a token remembers the key that
      signed it); [iat] and [exp] are whole seconds, computed from the
      millisecond clock [Date.now()] by [Math.floor(Date.now() / 1000)].

    Every route goes through prepared statements. The in-memory helpers
    of lines 20-27 ([findUserByEmail], [createUser]) are called by no
    route; they are modelled on their own in [Memory]. The client of
    [src/unnamed/part_000] is modelled where it calls the server and
    where it keeps state of its own. *)

From Stdlib Require Import ZArith List String Bool Lia Sorted Permutation.
Import ListNotations.

Set Warnings "-register-all".
Local Open Scope string_scope.
Local Open Scope Z_scope.

(** ** JSON values, as built by [res.json] *)

Inductive json : Type :=
| JNull
| JNum (n : Z)
| JStr (s : string)
| JArr (items : list json)
| JObj (fields : list (string * json)).

(** Names of the fields of an object, in order ([Object.keys]). *)
Definition keys (j : json) : list string :=
  match j with
  | JObj fields => map fst fields
  | _ => []
  end.

(** Field access [j.k]; [None] is [undefined]. *)
Fixpoint assoc (k : string) (fields : list (string * json)) : option json :=
  match fields with
  | [] => None
  | (k', v) :: rest => if String.eqb k k' then Some v else assoc k rest
  end.

Definition get (k : string) (j : json) : option json :=
  match j with
  | JObj fields => assoc k fields
  | _ => None
  end.

(** ** bcrypt *)

Module Bcrypt.

(** The bytes of a password that bcrypt reads: the first 72. *)
Definition key (data : string) : string := substring 0 72 data.

(** A digest records the cost factor, the salt and the bytes hashed. *)
Record digest : Type := mk { rounds : Z; salt : string; preimage : string }.

(** [bcrypt.hash(data, rounds)]: rejects when [data] is undefined; the
    salt is drawn by the library and is an input here. *)
Definition hash (data : option string) (rounds : Z) (salt : string)
  : option digest :=
  match data with
  | Some pw => Some (mk rounds salt (key pw))
  | None => None
  end.

(** [bcrypt.compare(data, hash)]: rejects when [data] is undefined. *)
Definition compare (data : option string) (h : digest) : option bool :=
  match data with
  | Some pw => Some (String.eqb (key pw) (preimage h))
  | None => None
  end.

End Bcrypt.

Arguments Bcrypt.key : simpl never.

(** ** jsonwebtoken *)

Module Jwt.

(** The decoded payload: the three fields the login handler signs and
    the two registered claims the library adds. *)
Record claims : Type :=
  mk { id : Z; email : string; nombre : string; iat : Z; exp : Z }.

(** What a cookie can hold: text that does not decode to a token, or a
    token signed with some key. *)
Inductive token : Type :=
| Malformed (text : string)
| Signed (key : string) (payload : claims).

Inductive error : Type :=
| JsonWebTokenError (message : string)
| TokenExpiredError.

(** [jwt.sign({id, email, nombre}, secret, {expiresIn})] at clock [now]
    (milliseconds); [expiresIn] is the time span in seconds. *)
Definition sign (uid : Z) (mail name : string) (secret : string)
           (expiresIn : Z) (now : Z) : token :=
  let timestamp := now / 1000 in
  Signed secret (mk uid mail name timestamp (timestamp + expiresIn)).

(** [jwt.verify(token, secret)] at clock [now] (milliseconds): decode,
    then check the signature, then the expiry. *)
Definition verify (t : token) (secret : string) (now : Z)
  : error + claims :=
  match t with
  | Malformed _ => inl (JsonWebTokenError "jwt malformed")
  | Signed key payload =>
      if String.eqb key secret then
        let clockTimestamp := now / 1000 in
        if clockTimestamp >=? exp payload then inl TokenExpiredError
        else inr payload
      else inl (JsonWebTokenError "invalid signature")
  end.

End Jwt.

(** [JWT_EXPIRES = '7d'] (line 11): the span the library reads from the
    text, [ms('7d') / 1000] seconds. *)
Definition JWT_EXPIRES : Z := 7 * 24 * 60 * 60.

(** ** The schema (lines 28-50) *)

Module User.
Record t : Type :=
  mk { id : Z; nombre : string; email : string;
       password : Bcrypt.digest; created_at : string }.
End User.

Module Playlist.
Record t : Type :=
  mk { id : Z; nombre : string; user_id : Z; created_at : string }.
End Playlist.

Module PlaylistSong.
Record t : Type :=
  mk { playlist_id : Z; song_path : string; added_at : string }.
End PlaylistSong.

(** The database: the rows of each table in rowid order, and the
    [sqlite_sequence] entries of the two AUTOINCREMENT tables. *)
Record DB : Type :=
  mkDB { users : list User.t;
         playlists : list Playlist.t;
         playlist_songs : list PlaylistSong.t;
         users_seq : Z;
         playlists_seq : Z }.

Definition empty_db : DB := mkDB [] [] [] 0 0.

(** A [:id] segment of the URL is text. Compared with, or stored in, an
    INTEGER column it is converted when it spells an integer, and
    otherwise stays text and equals no integer. *)
Inductive route_id : Type :=
| IdInt (z : Z)
| IdText (s : string).

(** ** The prepared statements *)

Module Sql.

Definition max_id {A : Type} (id : A -> Z) (rows : list A) : Z :=
  fold_right (fun r m => Z.max (id r) m) 0 rows.

(** AUTOINCREMENT: one more than the largest rowid ever used. *)
Definition next_id {A : Type} (id : A -> Z) (rows : list A) (seq : Z) : Z :=
  Z.max seq (max_id id rows) + 1.

(** [SELECT * FROM users WHERE email = ?] *)
Definition select_user_by_email (db : DB) (email : string)
  : option User.t :=
  find (fun u => String.eqb (User.email u) email) (users db).

(** [SELECT ... FROM users WHERE id = ?], the parent-key lookup of
    [FOREIGN KEY(user_id) REFERENCES users(id)]. *)
Definition user_exists (db : DB) (uid : Z) : bool :=
  existsb (fun u => User.id u =? uid) (users db).

(** [INSERT INTO users (nombre, email, password) VALUES (?, ?, ?)]:
    fails on [email TEXT NOT NULL UNIQUE] when the email is taken. *)
Definition insert_user (db : DB) (nombre email : string)
           (password : Bcrypt.digest) (timestamp : string) : option DB :=
  match select_user_by_email db email with
  | Some _ => None
  | None =>
      let id := next_id User.id (users db) (users_seq db) in
      Some (mkDB (users db ++ [User.mk id nombre email password timestamp])
                 (playlists db) (playlist_songs db)
                 id (playlists_seq db))
  end.

(** [SELECT * FROM playlists WHERE id = ? AND user_id = ?] *)
Definition select_owned_playlist (db : DB) (id : route_id) (uid : Z)
  : option Playlist.t :=
  match id with
  | IdInt z =>
      find (fun p => (Playlist.id p =? z) && (Playlist.user_id p =? uid))
           (playlists db)
  | IdText _ => None
  end.

(** [INSERT INTO playlists (nombre, user_id) VALUES (?, ?)]: fails on
    the foreign key [user_id] when foreign keys are enforced and the
    user is missing. Returns the new database and [lastInsertRowid]. *)
Definition insert_playlist (foreign_keys : bool) (db : DB)
           (nombre : string) (uid : Z) (timestamp : string)
  : option (DB * Z) :=
  if foreign_keys && negb (user_exists db uid) then None
  else
    let id := next_id Playlist.id (playlists db) (playlists_seq db) in
    Some (mkDB (users db)
               (playlists db ++ [Playlist.mk id nombre uid timestamp])
               (playlist_songs db)
               (users_seq db) id, id).

Definition is_song (pid : Z) (path : string) (r : PlaylistSong.t) : bool :=
  (PlaylistSong.playlist_id r =? pid)
  && String.eqb (PlaylistSong.song_path r) path.

(** [INSERT OR IGNORE INTO playlist_songs (playlist_id, song_path)
    VALUES (?, ?)]: a row that would break
    [PRIMARY KEY(playlist_id, song_path)] is skipped. *)
Definition insert_or_ignore_song (db : DB) (pid : Z)
           (path : string) (timestamp : string) : DB :=
  if existsb (is_song pid path) (playlist_songs db) then db
  else mkDB (users db) (playlists db)
            (playlist_songs db ++ [PlaylistSong.mk pid path timestamp])
            (users_seq db) (playlists_seq db).

(** A path put at its place in a list in ascending byte order. *)
Fixpoint insert_path (path : string) (paths : list string) : list string :=
  match paths with
  | [] => [path]
  | q :: rest =>
      if String.leb path q then path :: paths
      else q :: insert_path path rest
  end.

(** The order of the index of [PRIMARY KEY(playlist_id, song_path)]
    within one playlist: ascending [song_path], compared byte by byte. *)
Definition index_order (paths : list string) : list string :=
  fold_right insert_path [] paths.

(** [SELECT song_path FROM playlist_songs WHERE playlist_id = ?]: with
    no ORDER BY the engine answers from the primary-key index, so the
    paths come in the order of that index. *)
Definition select_song_paths (db : DB) (pid : Z) : list string :=
  index_order
    (map PlaylistSong.song_path
         (filter (fun r => PlaylistSong.playlist_id r =? pid)
                 (playlist_songs db))).

(** [DELETE FROM playlist_songs WHERE playlist_id = ? AND song_path = ?] *)
Definition delete_song (db : DB) (pid : Z) (path : string) : DB :=
  mkDB (users db) (playlists db)
       (filter (fun r => negb (is_song pid path r)) (playlist_songs db))
       (users_seq db) (playlists_seq db).

(** [COUNT(ps.song_path)] over the rows joined to playlist [pid]. *)
Definition song_count (db : DB) (pid : Z) : Z :=
  Z.of_nat (List.length (filter (fun r => PlaylistSong.playlist_id r =? pid)
                           (playlist_songs db))).

(** [SELECT p.*, COUNT(ps.song_path) as song_count FROM playlists p
    LEFT JOIN playlist_songs ps ON p.id = ps.playlist_id
    WHERE p.user_id = ? GROUP BY p.id]: one row per playlist of the
    user, with the columns of [p.*] followed by [song_count]. *)
Definition playlist_with_count (db : DB) (p : Playlist.t) : json :=
  JObj [("id", JNum (Playlist.id p));
        ("nombre", JStr (Playlist.nombre p));
        ("user_id", JNum (Playlist.user_id p));
        ("created_at", JStr (Playlist.created_at p));
        ("song_count", JNum (song_count db (Playlist.id p)))].

Definition select_playlists_with_count (db : DB) (uid : Z) : list json :=
  map (playlist_with_count db)
      (filter (fun p => Playlist.user_id p =? uid) (playlists db)).

End Sql.

(** ** Requests and responses *)

(** What the environment supplies to one request: the clock
    [Date.now()] in milliseconds, the text of SQL's CURRENT_TIMESTAMP,
    and the salt bcrypt draws. *)
Record env : Type := mkEnv { now : Z; timestamp : string; salt : string }.

(** A request: the route with its URL parameters and the fields the
    handler reads from the JSON body. A body field is a string or is
    absent ([None], JavaScript's [undefined]); an absent value cannot be
    bound to a statement or hashed, the call throws. *)
Inductive request : Type :=
| PostRegister (nombre email password : option string)
| PostLogin (email password : option string)
| PostLogout
| GetPlaylists
| PostPlaylists (nombre : option string)
| PostPlaylistSongs (id : route_id) (songPath : option string)
| GetPlaylistSongs (id : route_id)
| DeletePlaylistSong (playlistId : route_id) (songPath : string).

Inductive cookie_action : Type :=
| NoCookie
| SetToken (token : Jwt.token) (httpOnly secure : bool) (maxAge : Z)
| ClearToken.

Record response : Type :=
  mkResponse { status : Z; body : json; cookie : cookie_action }.

(** [res.status(code).json(j)]; [res.json(j)] alone answers 200. *)
Definition reply (code : Z) (j : json) : response := mkResponse code j NoCookie.

Definition message (text : string) : json := JObj [("message", JStr text)].

(** ** The application *)

Section Server.

(** [JWT_SECRET] (line 10), [process.env.NODE_ENV === 'production'],
    and whether the engine enforces foreign keys. *)
Variable JWT_SECRET : string.
Variable production : bool.
Variable foreign_keys : bool.

(** [!token] on the cookie: absent, or the empty string. *)
Definition no_token (c : option Jwt.token) : bool :=
  match c with
  | None => true
  | Some (Jwt.Malformed "") => true
  | Some _ => false
  end.

(** [authMiddleware] (lines 60-73): the decoded payload for [next()],
    or the 401 response. *)
Definition authMiddleware (c : option Jwt.token) (clock : Z)
  : response + Jwt.claims :=
  match c with
  | None => inl (reply 401 (message "No autenticado"))
  | Some token =>
      if no_token c then inl (reply 401 (message "No autenticado"))
      else
        match Jwt.verify token JWT_SECRET clock with
        | inr decoded => inr decoded
        | inl _ => inl (reply 401 (message "Token inválido"))
        end
  end.

(** [POST /api/register] (lines 76-88) *)
Definition post_register (db : DB) (e : env)
           (nombre email password : option string) : DB * response :=
  let failed := (db, reply 400 (message "Error al registrar usuario")) in
  match Bcrypt.hash password 10 (salt e) with
  | None => failed
  | Some hashedPassword =>
      match nombre, email with
      | Some n, Some m =>
          match Sql.insert_user db n m hashedPassword (timestamp e) with
          | Some db' =>
              (db', reply 201 (message "Usuario registrado exitosamente"))
          | None => failed
          end
      | _, _ => failed
      end
  end.

Definition user_json (user : User.t) : json :=
  JObj [("id", JNum (User.id user));
        ("email", JStr (User.email user));
        ("nombre", JStr (User.nombre user))].

(** [POST /api/login] (lines 90-126) *)
Definition post_login (db : DB) (e : env) (email password : option string)
  : DB * response :=
  let invalid := (db, reply 400 (message "Credenciales inválidas")) in
  let failed := (db, reply 400 (message "Error al iniciar sesión")) in
  match email with
  | None => failed
  | Some m =>
      match Sql.select_user_by_email db m with
      | None => invalid
      | Some user =>
          match Bcrypt.compare password (User.password user) with
          | None => failed
          | Some false => invalid
          | Some true =>
              let token :=
                Jwt.sign (User.id user) (User.email user) (User.nombre user)
                         JWT_SECRET JWT_EXPIRES (now e) in
              (db, mkResponse 200 (JObj [("user", user_json user)])
                     (SetToken token true production
                               (7 * 24 * 60 * 60 * 1000)))
          end
      end
  end.

(** [POST /api/logout] (lines 128-131) *)
Definition post_logout (db : DB) : DB * response :=
  (db, mkResponse 200 (message "Sesión cerrada") ClearToken).

(** [GET /api/playlists] (lines 134-148) *)
Definition get_playlists (db : DB) (user : Jwt.claims) : DB * response :=
  let playlists := Sql.select_playlists_with_count db (Jwt.id user) in
  (db, reply 200 (JObj [("playlists", JArr playlists)])).

(** [POST /api/playlists] (lines 150-168) *)
Definition post_playlists (db : DB) (e : env) (user : Jwt.claims)
           (nombre : option string) : DB * response :=
  let failed := (db, reply 400 (message "Error al crear playlist")) in
  match nombre with
  | None => failed
  | Some n =>
      match Sql.insert_playlist foreign_keys db n (Jwt.id user)
                                (timestamp e) with
      | None => failed
      | Some (db', lastInsertRowid) =>
          (db', reply 201
                  (JObj [("playlist",
                          JObj [("id", JNum lastInsertRowid);
                                ("nombre", JStr n);
                                ("user_id", JNum (Jwt.id user));
                                ("song_count", JNum 0)])]))
      end
  end.

Definition not_found : response :=
  reply 404 (message "Playlist no encontrada").

(** [POST /api/playlists/:id/songs] (lines 170-192) *)
Definition post_playlist_songs (db : DB) (e : env) (user : Jwt.claims)
           (id : route_id) (songPath : option string) : DB * response :=
  match Sql.select_owned_playlist db id (Jwt.id user) with
  | None => (db, not_found)
  | Some playlist =>
      match songPath with
      | None => (db, reply 400 (message "Error al agregar canción"))
      | Some path =>
          (Sql.insert_or_ignore_song db (Playlist.id playlist) path
                                     (timestamp e),
           reply 201 (message "Canción agregada"))
      end
  end.

(** [GET /api/playlists/:id/songs] (lines 194-215) *)
Definition get_playlist_songs (db : DB) (user : Jwt.claims) (id : route_id)
  : DB * response :=
  match Sql.select_owned_playlist db id (Jwt.id user) with
  | None => (db, not_found)
  | Some playlist =>
      let songs := Sql.select_song_paths db (Playlist.id playlist) in
      (db, reply 200 (JObj [("songs", JArr (map JStr songs))]))
  end.

(** [DELETE /api/playlists/:playlistId/songs/:songPath] (lines 217-238) *)
Definition delete_playlist_song (db : DB) (user : Jwt.claims)
           (playlistId : route_id) (songPath : string) : DB * response :=
  match Sql.select_owned_playlist db playlistId (Jwt.id user) with
  | None => (db, not_found)
  | Some playlist =>
      (Sql.delete_song db (Playlist.id playlist) songPath,
       reply 200 (message "Canción eliminada"))
  end.

(** A route mounted behind [authMiddleware]. *)
Definition guarded (db : DB) (e : env) (c : option Jwt.token)
           (handler : Jwt.claims -> DB * response) : DB * response :=
  match authMiddleware c (now e) with
  | inl unauthenticated => (db, unauthenticated)
  | inr user => handler user
  end.

(** The router: one request, with the cookie it carries, against the
    current database. *)
Definition handle (db : DB) (e : env) (c : option Jwt.token)
           (req : request) : DB * response :=
  match req with
  | PostRegister nombre email password =>
      post_register db e nombre email password
  | PostLogin email password => post_login db e email password
  | PostLogout => post_logout db
  | GetPlaylists => guarded db e c (get_playlists db)
  | PostPlaylists nombre =>
      guarded db e c (fun user => post_playlists db e user nombre)
  | PostPlaylistSongs id songPath =>
      guarded db e c (fun user => post_playlist_songs db e user id songPath)
  | GetPlaylistSongs id =>
      guarded db e c (fun user => get_playlist_songs db user id)
  | DeletePlaylistSong playlistId songPath =>
      guarded db e c
              (fun user => delete_playlist_song db user playlistId songPath)
  end.

(** The databases the server can be in: the empty one it starts from,
    and whatever a request leaves behind. *)
Inductive reachable : DB -> Prop :=
| reachable_start : reachable empty_db
| reachable_step (db : DB) (e : env) (c : option Jwt.token) (req : request) :
    reachable db -> reachable (fst (handle db e c req)).

End Server.

(** ** Ownership and membership, as the specification speaks of them *)

(** User [uid] owns a playlist whose id the URL segment [id] spells. *)
Definition owns (db : DB) (uid : Z) (id : route_id) : Prop :=
  exists p, In p (playlists db)
            /\ id = IdInt (Playlist.id p)
            /\ Playlist.user_id p = uid.

(** Number of membership rows for the pair [(pid, path)]. *)
Definition memberships (db : DB) (pid : Z) (path : string) : nat :=
  List.length (filter (Sql.is_song pid path) (playlist_songs db)).

(** [PRIMARY KEY(playlist_id, song_path)] holds in [db]. *)
Definition song_key_unique (db : DB) : Prop :=
  forall pid path, (memberships db pid path <= 1)%nat.

(** [FOREIGN KEY(playlist_id) REFERENCES playlists(id)] holds in [db]:
    no membership row is orphaned. *)
Definition no_orphans (db : DB) : Prop :=
  forall r, In r (playlist_songs db) ->
            exists p, In p (playlists db)
                      /\ Playlist.id p = PlaylistSong.playlist_id r.

(** Number of membership rows of playlist [pid], counted over the
    [playlist_id] column. *)
Definition rows_of (db : DB) (pid : Z) : nat :=
  count_occ Z.eq_dec (map PlaylistSong.playlist_id (playlist_songs db)) pid.

(** ** What one request can do to the database *)

(** The five ways a handler leaves the database: untouched, one user
    inserted, one playlist inserted, one song inserted-or-ignored into
    an existing playlist, one song deleted. *)
Inductive effect (db : DB) : DB -> Prop :=
| effect_none : effect db db
| effect_user nombre email hashed ts db' :
    Sql.insert_user db nombre email hashed ts = Some db' -> effect db db'
| effect_playlist fk nombre uid ts db' rowid :
    Sql.insert_playlist fk db nombre uid ts = Some (db', rowid) ->
    effect db db'
| effect_add p path ts :
    In p (playlists db) ->
    effect db (Sql.insert_or_ignore_song db (Playlist.id p) path ts)
| effect_remove pid path :
    effect db (Sql.delete_song db pid path).

(** [row] is the JSON row of playlist [p] in the list read from [db]. *)
Definition row_describes (db : DB) (p : Playlist.t) (row : json) : Prop :=
  keys row = ["id"; "nombre"; "user_id"; "created_at"; "song_count"]
  /\ get "id" row = Some (JNum (Playlist.id p))
  /\ get "nombre" row = Some (JStr (Playlist.nombre p))
  /\ get "user_id" row = Some (JNum (Playlist.user_id p))
  /\ get "created_at" row = Some (JStr (Playlist.created_at p))
  /\ get "song_count" row = Some (JNum (Z.of_nat (rows_of db (Playlist.id p)))).

(** The playlist a playlist-scoped request names: [addSong],
    [listSongs] and [removeSong] carry a playlist id in their URL. *)
Definition playlist_scoped (req : request) : option route_id :=
  match req with
  | PostPlaylistSongs id _ => Some id
  | GetPlaylistSongs id => Some id
  | DeletePlaylistSong playlistId _ => Some playlistId
  | _ => None
  end.

(** The routes mounted behind [authMiddleware]. *)
Definition guarded_route (req : request) : bool :=
  match req with
  | PostRegister _ _ _ | PostLogin _ _ | PostLogout => false
  | _ => true
  end.

(** One day and seven days on the millisecond clock. *)
Definition day_ms : Z := 24 * 60 * 60 * 1000.
Definition seven_days_ms : Z := 7 * day_ms.

(** ** More of the server: who acts, and what a request may change *)

(** The user id the gate resolves from the cookie, if any. *)
Definition actor (secret : string) (c : option Jwt.token) (clock : Z)
  : option Z :=
  match authMiddleware secret c clock with
  | inr user => Some (Jwt.id user)
  | inl _ => None
  end.

(** What a request served for [who] can do to the database, with the
    owner of every playlist it touches. *)
Inductive change (fk : bool) (who : option Z) (db : DB) : DB -> Prop :=
| change_none : change fk who db db
| change_user nombre email hashed ts db' :
    Sql.insert_user db nombre email hashed ts = Some db' ->
    change fk who db db'
| change_playlist uid nombre ts db' rowid :
    who = Some uid ->
    Sql.insert_playlist fk db nombre uid ts = Some (db', rowid) ->
    change fk who db db'
| change_add uid p path ts :
    who = Some uid -> In p (playlists db) -> Playlist.user_id p = uid ->
    change fk who db (Sql.insert_or_ignore_song db (Playlist.id p) path ts)
| change_remove uid p path :
    who = Some uid -> In p (playlists db) -> Playlist.user_id p = uid ->
    change fk who db (Sql.delete_song db (Playlist.id p) path).

(** The routes that only read. *)
Definition read_only (req : request) : bool :=
  match req with
  | PostLogin _ _ | PostLogout | GetPlaylists | GetPlaylistSongs _ => true
  | _ => false
  end.

(** [email TEXT NOT NULL UNIQUE] and the AUTOINCREMENT key of [users]. *)
Definition users_ok (db : DB) : Prop :=
  NoDup (map User.email (users db))
  /\ NoDup (map User.id (users db))
  /\ forall u, In u (users db) -> 0 < User.id u <= users_seq db.

(** The AUTOINCREMENT key of [playlists]. *)
Definition playlists_ok (db : DB) : Prop :=
  NoDup (map Playlist.id (playlists db))
  /\ forall p, In p (playlists db) -> 0 < Playlist.id p <= playlists_seq db.

(** [FOREIGN KEY(user_id) REFERENCES users(id)] holds in [db]. *)
Definition owners_exist (db : DB) : Prop :=
  forall p, In p (playlists db) ->
            exists u, In u (users db) /\ User.id u = Playlist.user_id p.

(** A list of paths in ascending byte order. *)
Definition ascending (paths : list string) : Prop :=
  StronglySorted (fun a b => String.leb a b = true) paths.

(** The song paths [listSongs] answers with, read back from the body. *)
Definition songs_body (paths : list string) : json :=
  JObj [("songs", JArr (map JStr paths))].

(** What user [who] reads is the same in [db] and [db']: the answer to
    [GET /api/playlists] and to [GET /api/playlists/:id/songs] for
    every id. *)
Definition same_views (who : Jwt.claims) (db db' : DB) : Prop :=
  snd (get_playlists db' who) = snd (get_playlists db who)
  /\ forall id,
       snd (get_playlist_songs db' who id) = snd (get_playlist_songs db who id).

(** ** The in-memory store (lines 13-27) *)

Module Memory.

(** [db]: three arrays of objects. *)
Record t : Type :=
  mk { users : list json; playlists : list json; playlistSongs : list json }.

(** [const db = { users: [], playlists: [], playlistSongs: [] }] *)
Definition db : t := mk [] [] [].

(** Setting a property of an object: an existing key keeps its place. *)
Fixpoint set_field (k : string) (v : json) (fields : list (string * json))
  : list (string * json) :=
  match fields with
  | [] => [(k, v)]
  | (k', v') :: rest =>
      if String.eqb k k' then (k, v) :: rest
      else (k', v') :: set_field k v rest
  end.

(** [u.email === email] for a string [email]. *)
Definition has_email (email : string) (u : json) : bool :=
  match get "email" u with
  | Some (JStr s) => String.eqb s email
  | _ => false
  end.

(** [findUserByEmail] (line 21) *)
Definition findUserByEmail (d : t) (email : string) : option json :=
  find (has_email email) (users d).

(** [createUser] (lines 22-27): [now] is [Date.now()], [iso] is
    [new Date().toISOString()]. Returns the store and the user. *)
Definition createUser (d : t) (userData : list (string * json))
           (now : Z) (iso : string) : t * json :=
  let id := JNum now in
  let user :=
    JObj (set_field "created_at" (JStr iso) (set_field "id" id userData)) in
  (mk (users d ++ [user]) (playlists d) (playlistSongs d), user).

End Memory.

(** ** The login form of the client (src/unnamed/part_000, lines 3-32) *)

Module Auth.

(** [formData]: the three inputs, empty strings at first. *)
Record formData : Type :=
  mk { email : string; password : string; nombre : string }.

(** [response.ok] *)
Definition ok (r : response) : bool :=
  (200 <=? status r) && (status r <=? 299).

(** What the browser does with the cookie of a response. *)
Definition store_cookie (jar : option Jwt.token) (a : cookie_action)
  : option Jwt.token :=
  match a with
  | NoCookie => jar
  | SetToken token _ _ _ => Some token
  | ClearToken => None
  end.

(** The request [handleSubmit] posts: the whole form as the body, to
    [/api/login] or [/api/register]. *)
Definition submitted (isLogin : bool) (form : formData) : request :=
  if isLogin then PostLogin (Some (email form)) (Some (password form))
  else PostRegister (Some (nombre form)) (Some (email form))
                    (Some (password form)).

(** [handleSubmit] against the server: the database, the cookie jar and
    the [user] state of [App] afterwards. [onLogin] is [setUser]; a
    [user] that is [null] or [undefined] is [None]. *)
Definition handleSubmit (secret : string) (production fk : bool)
           (isLogin : bool) (form : formData)
           (db : DB) (e : env) (jar : option Jwt.token) (user : option json)
  : DB * option Jwt.token * option json :=
  let (db', response) :=
    handle secret production fk db e jar (submitted isLogin form) in
  let jar' := store_cookie jar (cookie response) in
  if ok response then (db', jar', get "user" (body response))
  else (db', jar', user).

End Auth.

(** ** The player of the client (src/unnamed/part_000, lines 203-262) *)

Module Player.

(** [audioRef.current.src]: never assigned, assigned [undefined], or
    assigned a path. *)
Inductive source : Type :=
| Unset
| Undefined
| Url (path : string).

(** The state the player functions read and write. *)
Record t : Type :=
  mk { canciones : list string;
       playlistActiva : option string;
       currentIndex : Z;
       isPlaying : bool;
       isShuffle : bool;
       isRepeat : bool;
       src : source }.

(** The state [App] starts with. *)
Definition initial : t := mk [] None 0 false false false Unset.

(** [canciones[i]] *)
Definition at_index (l : list string) (i : Z) : option string :=
  if i <? 0 then None else nth_error l (Z.to_nat i).

Definition assigned (v : option string) : source :=
  match v with
  | Some path => Url path
  | None => Undefined
  end.

(** [playSong] (lines 245-252); [%] is the truncating remainder. *)
Definition playSong (p : t) (index : Z) : t :=
  let length := Z.of_nat (List.length (canciones p)) in
  if length =? 0 then p
  else
    let newIndex := Z.rem (index + length) length in
    mk (canciones p) (playlistActiva p) newIndex true
       (isShuffle p) (isRepeat p)
       (assigned (at_index (canciones p) newIndex)).

(** [prevSong] (line 254) *)
Definition prevSong (p : t) : t := playSong p (currentIndex p - 1).

(** [nextSong] (lines 255-262); [randomIndex] is what
    [Math.floor(Math.random() * canciones.length)] gave. *)
Definition nextSong (p : t) (randomIndex : Z) : t :=
  if isShuffle p then playSong p randomIndex
  else playSong p (currentIndex p + 1).

(** The click on a playlist tile or on a local song (lines 373-377,
    487-491): [setPlaylistActiva(nombre); setCanciones(lista);
    playSong(index)]. [playSong] runs in the render that drew the
    button, so it reads the list of that render; the new list is in the
    state of the next one. *)
Definition select (p : t) (nombre : string) (lista : list string)
           (index : Z) : t :=
  let q := playSong p index in
  mk lista (Some nombre) (currentIndex q) (isPlaying q)
     (isShuffle q) (isRepeat q) (src q).

End Player.

(** ** The local songs of the client (src/unnamed/part_000, lines 205, 475-505) *)

Module Locales.

(** An uploaded file: its name and its object URL. *)
Record cancion : Type := mk { nombre : string; url : string }.

(** The list as drawn: [cancionesLocales.filter(c =>
    c.nombre.toLowerCase().includes(busqueda.toLowerCase()))]; [visible]
    is that test for the search text typed. *)
Definition shown (visible : cancion -> bool) (cancionesLocales : list cancion)
  : list cancion :=
  filter visible cancionesLocales.

(** [array.filter((_, i) => i !== index)] *)
Fixpoint without {A : Type} (l : list A) (index : nat) : list A :=
  match l, index with
  | [], _ => []
  | _ :: rest, O => rest
  | a :: rest, S k => a :: without rest k
  end.

(** The bin button of the row drawn at position [index] (lines 495-502):
    [setCancionesLocales(cancionesLocales.filter((_, i) => i !== index))]. *)
Definition eliminar (cancionesLocales : list cancion) (index : nat)
  : list cancion :=
  without cancionesLocales index.

End Locales.

(** ** The chat of the client (src/unnamed/part_000, lines 524-554) *)

Module Chat.

Record msg : Type := mk { sender : string; text : string }.

(** The messages drawn for [activeUser] (lines 525-531). *)
Definition shown (activeUser : option string) (messages : list msg)
  : list msg :=
  let active s := match activeUser with
                  | Some u => String.eqb u s
                  | None => false
                  end in
  filter (fun m =>
            (active "Pipi"
             && (String.eqb (sender m) "Pipi" || String.eqb (sender m) "Lucho"))
            || (active "Lucho"
                && (String.eqb (sender m) "Pipi"
                    || String.eqb (sender m) "Lucho")))
         messages.

(** The class of a drawn message: [msg.sender === activeUser]. *)
Definition own (activeUser : option string) (m : msg) : bool :=
  match activeUser with
  | Some u => String.eqb (sender m) u
  | None => false
  end.

(** Enter in the input (lines 546-554), drawn only with a chat open:
    [trimmed] is [e.target.value.trim()]. *)
Definition enter (activeUser : string) (messages : list msg)
           (trimmed : string) : list msg :=
  if String.eqb trimmed "" then messages
  else messages ++ [mk activeUser trimmed].

End Chat.

(** ** Sample data *)

(** The default of line 10. *)
Definition dev_secret : string := "dev_secret_change_me".

Definition ana : User.t :=
  User.mk 1 "Ana" "ana@x.com" (Bcrypt.mk 10 "N9qo8uLOickgx2ZMRZoMye" "pw1")
          "2024-01-01 00:00:00".

Definition road_trip : Playlist.t :=
  Playlist.mk 1 "Road Trip" 1 "2024-01-01 00:05:00".

(** Ana is registered and owns one playlist holding one song. *)
Definition sample_db : DB :=
  mkDB [ana] [road_trip]
       [PlaylistSong.mk 1 "/musica/a.mp3" "2024-01-01 00:06:00"] 1 1.

(** 2024-01-01 12:00:00 UTC. *)
Definition noon : env :=
  mkEnv 1704110400000 "2024-01-01 12:00:00" "Xk3o7aBcQ1uYb0mPz5rT2e".

(** The payloads of two sessions opened at midnight: Ana's, and that of
    a second user, Bob. *)
Definition ana_session : Jwt.claims :=
  Jwt.mk 1 "ana@x.com" "Ana" 1704067200 1704672000.

Definition bob_session : Jwt.claims :=
  Jwt.mk 2 "bob@x.com" "Bob" 1704067200 1704672000.

(** Three songs, the second one playing. *)
Definition three_songs : Player.t :=
  Player.mk ["/musica/a.mp3"; "/musica/b.mp3"; "/musica/c.mp3"]
            (Some "Locales") 1 true false false (Player.Url "/musica/b.mp3").

(** Ana registers, creates a playlist under a session opened at
    midnight, and adds a song to it. *)
Definition ana_requests : list (option Jwt.token * request) :=
  [(None, PostRegister (Some "Ana") (Some "ana@x.com") (Some "pw1"));
   (Some (Jwt.Signed dev_secret ana_session),
    PostPlaylists (Some "Road Trip"));
   (Some (Jwt.Signed dev_secret ana_session),
    PostPlaylistSongs (IdInt 1) (Some "/musica/a.mp3"))].

(** The database after a list of requests, all served at [noon]. *)
Definition run (db : DB) (requests : list (option Jwt.token * request))
  : DB :=
  fold_left (fun d cr => fst (handle dev_secret false true d noon
                                     (fst cr) (snd cr)))
            requests db.

(** ** Lemmas on the statements *)

Lemma select_owned_some (db : DB) (id : route_id) (uid : Z) (p : Playlist.t) :
  Sql.select_owned_playlist db id uid = Some p ->
  In p (playlists db) /\ id = IdInt (Playlist.id p) /\ Playlist.user_id p = uid.
Proof.
  destruct id as [z | s]; simpl; [ | discriminate ].
  intros Hfind. apply find_some in Hfind. destruct Hfind as [Hin Hb].
  apply andb_true_iff in Hb. destruct Hb as [Hid Huid].
  apply Z.eqb_eq in Hid. apply Z.eqb_eq in Huid. subst. auto.
Qed.

Lemma select_owned_none (db : DB) (id : route_id) (uid : Z) :
  Sql.select_owned_playlist db id uid = None <-> ~ owns db uid id.
Proof.
  split.
  - intros Hnone (p & Hin & Hid & Huid). subst id. simpl in Hnone.
    pose proof (find_none _ _ Hnone p Hin) as Hb. simpl in Hb.
    rewrite Huid, !Z.eqb_refl in Hb. discriminate.
  - intros Hnot.
    destruct (Sql.select_owned_playlist db id uid) as [p | ] eqn:Hsel; auto.
    exfalso. apply Hnot. exists p. now apply select_owned_some.
Qed.

Lemma select_owned_owns (db : DB) (id : route_id) (uid : Z) :
  owns db uid id ->
  exists p, Sql.select_owned_playlist db id uid = Some p.
Proof.
  intros Hown.
  destruct (Sql.select_owned_playlist db id uid) as [p | ] eqn:Hsel; eauto.
  apply select_owned_none in Hsel. contradiction.
Qed.

Lemma select_user_some (db : DB) (email : string) (u : User.t) :
  Sql.select_user_by_email db email = Some u ->
  In u (users db) /\ User.email u = email.
Proof.
  unfold Sql.select_user_by_email. intros Hfind.
  apply find_some in Hfind. destruct Hfind as [Hin Hb].
  apply String.eqb_eq in Hb. auto.
Qed.

Lemma select_user_taken (db : DB) (u : User.t) :
  In u (users db) ->
  exists first, Sql.select_user_by_email db (User.email u) = Some first.
Proof.
  intros Hin. unfold Sql.select_user_by_email.
  destruct (find _ (users db)) as [first | ] eqn:Hfind; eauto.
  pose proof (find_none _ _ Hfind u Hin) as Hb. simpl in Hb.
  rewrite String.eqb_refl in Hb. discriminate.
Qed.

Lemma memberships_app (db : DB) (pid : Z) (path : string)
      (rows : list PlaylistSong.t) :
  List.length (filter (Sql.is_song pid path) (playlist_songs db ++ rows))
  = (memberships db pid path
     + List.length (filter (Sql.is_song pid path) rows))%nat.
Proof. unfold memberships. now rewrite filter_app, length_app. Qed.

Lemma existsb_memberships (db : DB) (pid : Z) (path : string) :
  existsb (Sql.is_song pid path) (playlist_songs db) = true
  <-> (1 <= memberships db pid path)%nat.
Proof.
  unfold memberships. induction (playlist_songs db) as [ | r rows IH]; simpl.
  - split; [ discriminate | lia ].
  - destruct (Sql.is_song pid path r); simpl; [ split; auto; lia | exact IH ].
Qed.

Lemma is_song_refl (pid : Z) (path ts : string) :
  Sql.is_song pid path (PlaylistSong.mk pid path ts) = true.
Proof. unfold Sql.is_song. simpl. now rewrite Z.eqb_refl, String.eqb_refl. Qed.

Lemma is_song_key (pid pid' : Z) (path path' ts : string) :
  Sql.is_song pid' path' (PlaylistSong.mk pid path ts) = true ->
  pid' = pid /\ path' = path.
Proof.
  unfold Sql.is_song. simpl. intros Hb. apply andb_true_iff in Hb.
  destruct Hb as [Hid Hpath].
  apply Z.eqb_eq in Hid. apply String.eqb_eq in Hpath. auto.
Qed.

Lemma song_count_rows (db : DB) (pid : Z) :
  Sql.song_count db pid = Z.of_nat (rows_of db pid).
Proof.
  unfold Sql.song_count, rows_of. f_equal.
  induction (playlist_songs db) as [ | r rows IH]; simpl; auto.
  destruct (Z.eq_dec (PlaylistSong.playlist_id r) pid) as [Heq | Hne].
  - apply Z.eqb_eq in Heq. rewrite Heq. simpl. now rewrite IH.
  - apply Z.eqb_neq in Hne. now rewrite Hne.
Qed.

#[local] Hint Constructors effect : core.

Section Effects.

Variable JWT_SECRET : string.
Variable production : bool.
Variable foreign_keys : bool.

Lemma handle_effect (db : DB) (e : env) (c : option Jwt.token)
      (req : request) :
  effect db (fst (handle JWT_SECRET production foreign_keys db e c req)).
Proof.
  destruct req; simpl; unfold guarded;
    try (destruct (authMiddleware JWT_SECRET c (now e)) as [r | user];
         simpl; [ constructor | ]).
  - unfold post_register.
    destruct (Bcrypt.hash password 10 (salt e)) as [h | ]; simpl; auto.
    destruct nombre as [n | ], email as [m | ]; simpl; auto.
    destruct (Sql.insert_user db n m h (timestamp e)) eqn:Hins; simpl; eauto.
  - unfold post_login.
    destruct email as [m | ]; simpl; auto.
    destruct (Sql.select_user_by_email db m) as [u | ]; simpl; auto.
    destruct (Bcrypt.compare password (User.password u)) as [[ | ] | ];
      simpl; auto.
  - constructor.
  - constructor.
  - unfold post_playlists. destruct nombre as [n | ]; simpl; auto.
    destruct (Sql.insert_playlist foreign_keys db n (Jwt.id user)
                                  (timestamp e)) as [[db' rowid] | ] eqn:Hins;
      simpl; eauto.
  - unfold post_playlist_songs.
    destruct (Sql.select_owned_playlist db id (Jwt.id user)) as [p | ] eqn:Hsel;
      simpl; auto.
    destruct songPath as [path | ]; simpl; auto.
    apply select_owned_some in Hsel. destruct Hsel as [Hin _]. auto.
  - unfold get_playlist_songs.
    destruct (Sql.select_owned_playlist db id (Jwt.id user)); simpl; auto.
  - unfold delete_playlist_song.
    destruct (Sql.select_owned_playlist db playlistId (Jwt.id user));
      simpl; auto.
Qed.

End Effects.

Lemma effect_keeps_playlists (db db' : DB) (p : Playlist.t) :
  effect db db' -> In p (playlists db) -> In p (playlists db').
Proof.
  intros Heff Hin. destruct Heff as [ | n m h ts db' Hins
                                     | fk n uid ts db' rowid Hins
                                     | q path ts Hq | pid path ]; auto.
  - unfold Sql.insert_user in Hins.
    destruct (Sql.select_user_by_email db m); inversion Hins; subst. auto.
  - unfold Sql.insert_playlist in Hins.
    destruct (fk && negb (Sql.user_exists db uid)); inversion Hins; subst.
    simpl. apply in_or_app. auto.
  - unfold Sql.insert_or_ignore_song.
    destruct (existsb _ (playlist_songs db)); auto.
Qed.

Lemma effect_no_orphans (db db' : DB) :
  effect db db' -> no_orphans db -> no_orphans db'.
Proof.
  intros Heff Hfk. pose proof (effect_keeps_playlists db db') as Hkeep.
  specialize (fun p => Hkeep p Heff).
  destruct Heff as [ | n m h ts db' Hins
                     | fk n uid ts db' rowid Hins
                     | q path ts Hq | pid path ]; auto.
  - unfold Sql.insert_user in Hins.
    destruct (Sql.select_user_by_email db m); inversion Hins; subst.
    exact Hfk.
  - intros r Hr. destruct (Hfk r) as (p & Hp & Hid).
    + unfold Sql.insert_playlist in Hins.
      destruct (fk && negb (Sql.user_exists db uid)); inversion Hins; subst.
      exact Hr.
    + exists p. auto.
  - intros r Hr.
    assert (Hcases : In r (playlist_songs db)
                     \/ PlaylistSong.playlist_id r = Playlist.id q).
    { unfold Sql.insert_or_ignore_song in Hr.
      destruct (existsb _ (playlist_songs db)); auto.
      simpl in Hr. apply in_app_or in Hr.
      destruct Hr as [Hold | [Hnew | []]]; subst; auto. }
    destruct Hcases as [Hold | Hnew].
    + destruct (Hfk r Hold) as (p & Hp & Hid). exists p. auto.
    + exists q. auto.
  - intros r Hr. simpl in Hr. apply filter_In in Hr. destruct Hr as [Hr _].
    destruct (Hfk r Hr) as (p & Hp & Hid). exists p. auto.
Qed.

Lemma filter_length_le {A : Type} (f g : A -> bool) (l : list A) :
  (List.length (filter f (filter g l)) <= List.length (filter f l))%nat.
Proof.
  induction l as [ | a l IH]; simpl; auto.
  destruct (g a), (f a) eqn:Hf; simpl; rewrite ?Hf; simpl; lia.
Qed.

Lemma effect_song_key_unique (db db' : DB) :
  effect db db' -> song_key_unique db -> song_key_unique db'.
Proof.
  intros Heff Hpk.
  destruct Heff as [ | n m h ts db' Hins
                     | fk n uid ts db' rowid Hins
                     | q path ts Hq | pid path ]; auto.
  - unfold Sql.insert_user in Hins.
    destruct (Sql.select_user_by_email db m); inversion Hins; subst.
    exact Hpk.
  - unfold Sql.insert_playlist in Hins.
    destruct (fk && negb (Sql.user_exists db uid)); inversion Hins; subst.
    exact Hpk.
  - unfold Sql.insert_or_ignore_song.
    destruct (existsb _ (playlist_songs db)) eqn:Hex; auto.
    intros pid' path'. unfold memberships at 1. simpl.
    rewrite memberships_app. simpl.
    destruct (Sql.is_song pid' path' _) eqn:Hkey; simpl.
    + apply is_song_key in Hkey. destruct Hkey; subst.
      destruct (existsb_memberships db (Playlist.id q) path) as [_ Hge].
      destruct (memberships db (Playlist.id q) path); [ lia | ].
      rewrite Hge in Hex by lia. discriminate.
    + specialize (Hpk pid' path'). lia.
  - intros pid' path'. unfold memberships. simpl.
    specialize (Hpk pid' path'). unfold memberships in Hpk.
    pose proof (filter_length_le (Sql.is_song pid' path')
                  (fun r => negb (Sql.is_song pid path r))
                  (playlist_songs db)).
    lia.
Qed.

Lemma reachable_invariants (secret : string) (production fk : bool) (db : DB) :
  reachable secret production fk db -> no_orphans db /\ song_key_unique db.
Proof.
  induction 1 as [ | db e c req Hreach [Hfk Hpk]].
  - split; [ intros r [] | intros pid path; unfold memberships; simpl; lia ].
  - pose proof (handle_effect secret production fk db e c req) as Heff.
    split; [ eapply effect_no_orphans | eapply effect_song_key_unique ]; eauto.
Qed.

(** ** Playlist operations *)

Lemma guarded_authenticated (secret : string) (db : DB) (e : env)
      (c : option Jwt.token) (user : Jwt.claims)
      (handler : Jwt.claims -> DB * response) :
  authMiddleware secret c (now e) = inr user ->
  guarded secret db e c handler = handler user.
Proof. intros Hauth. unfold guarded. now rewrite Hauth. Qed.

(** C1. A playlist-scoped request (addSong, listSongs, removeSong) by an
    authenticated user who does not own a playlist with the given id --
    because the id belongs to another owner, or to no playlist at all --
    leaves the database untouched and is answered by one fixed response:
    404 with body [{message: 'Playlist no encontrada'}]. *)
Theorem not_owned_is_not_found
        (secret : string) (production fk : bool) (db : DB) (e : env)
        (c : option Jwt.token) (user : Jwt.claims)
        (req : request) (id : route_id) :
  authMiddleware secret c (now e) = inr user ->
  playlist_scoped req = Some id ->
  ~ owns db (Jwt.id user) id ->
  handle secret production fk db e c req
  = (db, mkResponse 404 (JObj [("message", JStr "Playlist no encontrada")])
                    NoCookie).
Proof.
  intros Hauth Hscope Hnot. apply select_owned_none in Hnot.
  destruct req; simpl in Hscope; inversion Hscope; subst; simpl;
    rewrite (guarded_authenticated _ _ _ _ user) by exact Hauth.
  - unfold post_playlist_songs. now rewrite Hnot.
  - unfold get_playlist_songs. now rewrite Hnot.
  - unfold delete_playlist_song. now rewrite Hnot.
Qed.

(** Bob asks for the songs of Ana's playlist 1, then for those of
    playlist 7, which does not exist: the same answer both times. *)
Lemma not_owned_is_not_found_witness :
  let bob := Some (Jwt.Signed dev_secret bob_session) in
  handle dev_secret false true sample_db noon bob (GetPlaylistSongs (IdInt 1))
  = (sample_db,
     mkResponse 404 (JObj [("message", JStr "Playlist no encontrada")])
                NoCookie)
  /\ handle dev_secret false true sample_db noon bob
            (GetPlaylistSongs (IdInt 7))
     = handle dev_secret false true sample_db noon bob
              (GetPlaylistSongs (IdInt 1)).
Proof.
  split.
  - apply (not_owned_is_not_found dev_secret false true sample_db noon
             (Some (Jwt.Signed dev_secret bob_session)) bob_session
             (GetPlaylistSongs (IdInt 1)) (IdInt 1)).
    + reflexivity.
    + reflexivity.
    + apply select_owned_none. reflexivity.
  - reflexivity.
Defined.

(** C3. Adding the same song twice to an owned playlist: after the first
    call there is exactly one membership row for the pair, the second
    call changes nothing, and both calls answer 201. *)
Theorem add_song_twice
        (db : DB) (e1 e2 : env) (user : Jwt.claims)
        (id : route_id) (path : string) :
  song_key_unique db ->
  owns db (Jwt.id user) id ->
  exists pid,
    id = IdInt pid
    /\ let first := post_playlist_songs db e1 user id (Some path) in
       let second := post_playlist_songs (fst first) e2 user id (Some path) in
       memberships (fst first) pid path = 1%nat
       /\ fst second = fst first
       /\ memberships (fst second) pid path = 1%nat
       /\ snd first = reply 201 (message "Canción agregada")
       /\ snd second = reply 201 (message "Canción agregada").
Proof.
  intros Hpk Hown. destruct (select_owned_owns _ _ _ Hown) as [p Hsel].
  destruct (select_owned_some _ _ _ _ Hsel) as (Hin & Hid & Huid).
  exists (Playlist.id p). split; [ exact Hid | ].
  set (db1 := Sql.insert_or_ignore_song db (Playlist.id p) path (timestamp e1)).
  assert (Hone : memberships db1 (Playlist.id p) path = 1%nat).
  { subst db1. unfold Sql.insert_or_ignore_song.
    destruct (existsb _ (playlist_songs db)) eqn:Hex.
    - apply existsb_memberships in Hex. specialize (Hpk (Playlist.id p) path).
      lia.
    - unfold memberships at 1. simpl. rewrite memberships_app. simpl.
      rewrite is_song_refl. simpl.
      destruct (existsb_memberships db (Playlist.id p) path) as [_ Hge].
      destruct (memberships db (Playlist.id p) path); [ reflexivity | ].
      rewrite Hge in Hex by lia. discriminate. }
  assert (Hsel1 : Sql.select_owned_playlist db1 id (Jwt.id user) = Some p).
  { subst db1. unfold Sql.insert_or_ignore_song.
    destruct (existsb _ (playlist_songs db)); exact Hsel. }
  assert (Hsame : Sql.insert_or_ignore_song db1 (Playlist.id p) path
                                            (timestamp e2) = db1).
  { unfold Sql.insert_or_ignore_song at 1.
    destruct (existsb_memberships db1 (Playlist.id p) path) as [_ Hge].
    now rewrite Hge by lia. }
  cbv zeta. unfold post_playlist_songs. rewrite Hsel. cbn [fst snd].
  fold db1. rewrite Hsel1. cbn [fst snd]. rewrite Hsame. auto.
Qed.

(** Ana adds "/musica/b.mp3" to her playlist twice. *)
Lemma add_song_twice_witness :
  exists pid,
    IdInt 1 = IdInt pid
    /\ let first :=
         post_playlist_songs sample_db noon ana_session (IdInt 1)
                             (Some "/musica/b.mp3") in
       let second :=
         post_playlist_songs (fst first) noon ana_session (IdInt 1)
                             (Some "/musica/b.mp3") in
       memberships (fst first) pid "/musica/b.mp3" = 1%nat
       /\ fst second = fst first
       /\ memberships (fst second) pid "/musica/b.mp3" = 1%nat
       /\ snd first = reply 201 (message "Canción agregada")
       /\ snd second = reply 201 (message "Canción agregada").
Proof.
  apply (add_song_twice sample_db noon noon ana_session (IdInt 1)
                        "/musica/b.mp3").
  - intros pid path. unfold memberships. simpl.
    destruct (Sql.is_song pid path _); simpl; lia.
  - exists road_trip. simpl. auto.
Defined.

Lemma delete_absent_song (db : DB) (pid : Z) (path : string) :
  memberships db pid path = 0%nat -> Sql.delete_song db pid path = db.
Proof.
  unfold memberships, Sql.delete_song. destruct db as [us ps songs useq pseq].
  simpl. intros Hzero. f_equal.
  induction songs as [ | r rows IH]; simpl in *; auto.
  destruct (Sql.is_song pid path r); simpl in *; [ discriminate | ].
  now rewrite IH.
Qed.

(** C4. [removeSong] on a playlist the caller owns answers 200 whatever
    the song path; when the path has no membership row the database is
    left as it was. The 404 answer is given exactly when the caller owns
    no playlist with that id. *)
Theorem remove_song_succeeds
        (db : DB) (user : Jwt.claims) (id : route_id) (path : string) :
  (owns db (Jwt.id user) id ->
   snd (delete_playlist_song db user id path)
   = mkResponse 200 (JObj [("message", JStr "Canción eliminada")]) NoCookie
   /\ (forall pid, id = IdInt pid -> memberships db pid path = 0%nat ->
                   fst (delete_playlist_song db user id path) = db))
  /\ (snd (delete_playlist_song db user id path) = not_found
      <-> ~ owns db (Jwt.id user) id).
Proof.
  unfold delete_playlist_song. split.
  - intros Hown. destruct (select_owned_owns _ _ _ Hown) as [p Hsel].
    rewrite Hsel. simpl. split; [ reflexivity | ].
    intros pid Hid Habsent.
    destruct (select_owned_some _ _ _ _ Hsel) as (_ & Hid' & _).
    rewrite Hid in Hid'. inversion Hid'. subst pid.
    now apply delete_absent_song.
  - rewrite <- select_owned_none.
    destruct (Sql.select_owned_playlist db id (Jwt.id user)); simpl.
    + split; discriminate.
    + split; reflexivity.
Qed.

(** Ana removes "/musica/z.mp3", which she never added. *)
Lemma remove_song_succeeds_witness :
  delete_playlist_song sample_db ana_session (IdInt 1) "/musica/z.mp3"
  = (sample_db,
     mkResponse 200 (JObj [("message", JStr "Canción eliminada")]) NoCookie).
Proof.
  destruct (remove_song_succeeds sample_db ana_session (IdInt 1)
                                 "/musica/z.mp3") as [Howned _].
  destruct Howned as [Hok Hsame].
  - exists road_trip. simpl. auto.
  - rewrite (surjective_pairing (delete_playlist_song _ _ _ _)).
    rewrite Hok, (Hsame 1); reflexivity.
Defined.

(** ** Registration and login *)

(** C2. Registering with an email that a stored user already has is
    answered 400 and leaves the database -- hence that user's name,
    email and password hash -- exactly as it was. *)
Theorem duplicate_email_rejected
        (secret : string) (production fk : bool) (db : DB) (e : env)
        (c : option Jwt.token) (u : User.t)
        (nombre password : option string) :
  In u (users db) ->
  handle secret production fk db e c
         (PostRegister nombre (Some (User.email u)) password)
  = (db, mkResponse 400 (JObj [("message", JStr "Error al registrar usuario")])
                    NoCookie).
Proof.
  intros Hin. simpl. unfold post_register.
  destruct (Bcrypt.hash password 10 (salt e)) as [h | ]; [ | reflexivity ].
  destruct nombre as [n | ]; [ | reflexivity ].
  destruct (select_user_taken db u Hin) as [first Hfirst].
  unfold Sql.insert_user. now rewrite Hfirst.
Qed.

(** A second "Ana" registers with ana@x.com. *)
Lemma duplicate_email_rejected_witness :
  handle dev_secret false true sample_db noon None
         (PostRegister (Some "Ana II") (Some "ana@x.com") (Some "pw2"))
  = (sample_db,
     mkResponse 400 (JObj [("message", JStr "Error al registrar usuario")])
                NoCookie)
  /\ In ana (users sample_db).
Proof.
  split.
  - apply (duplicate_email_rejected dev_secret false true sample_db noon None
             ana (Some "Ana II") (Some "pw2")).
    simpl. auto.
  - simpl. auto.
Defined.

(** A login that carries a password: with a registered email and a
    password that bcrypt rejects it gets the same response as with an
    email nobody registered, 400 with body
    [{message: 'Credenciales inválidas'}]; neither touches the
    database. *)
Lemma login_failure_uniform
      (secret : string) (production : bool) (db : DB) (e : env)
      (u : User.t) (email email' pw : string) (pw' : option string) :
  Sql.select_user_by_email db email = Some u ->
  Bcrypt.key pw <> Bcrypt.preimage (User.password u) ->
  (forall v, In v (users db) -> User.email v <> email') ->
  post_login secret production db e (Some email) (Some pw)
  = (db, mkResponse 400 (JObj [("message", JStr "Credenciales inválidas")])
                    NoCookie)
  /\ post_login secret production db e (Some email') pw'
     = post_login secret production db e (Some email) (Some pw).
Proof.
  intros Huser Hwrong Hnone.
  assert (Hmiss : Sql.select_user_by_email db email' = None).
  { destruct (Sql.select_user_by_email db email') as [v | ] eqn:Hsel; auto.
    apply select_user_some in Hsel. destruct Hsel as [Hin Hmail].
    now destruct (Hnone v Hin). }
  apply String.eqb_neq in Hwrong.
  unfold post_login. rewrite Huser, Hmiss. simpl. rewrite Hwrong. auto.
Qed.

(** C7. The two failures are not always answered alike. A login that
    carries no password is answered 400 'Error al iniciar sesión' when
    the email is registered ([bcrypt.compare] throws and the [catch]
    answers) and 400 'Credenciales inválidas' when it is not: the two
    answers differ, so the caller learns whether the account exists. *)
Theorem login_without_password_reveals_account
        (secret : string) (production : bool) (db : DB) (e : env)
        (u : User.t) (email email' : string) :
  Sql.select_user_by_email db email = Some u ->
  (forall v, In v (users db) -> User.email v <> email') ->
  post_login secret production db e (Some email) None
  = (db, mkResponse 400 (JObj [("message", JStr "Error al iniciar sesión")])
                    NoCookie)
  /\ post_login secret production db e (Some email') None
     = (db, mkResponse 400 (JObj [("message", JStr "Credenciales inválidas")])
                       NoCookie)
  /\ post_login secret production db e (Some email) None
     <> post_login secret production db e (Some email') None.
Proof.
  intros Huser Hnone.
  assert (Hmiss : Sql.select_user_by_email db email' = None).
  { destruct (Sql.select_user_by_email db email') as [v | ] eqn:Hsel; auto.
    apply select_user_some in Hsel. destruct Hsel as [Hin Hmail].
    now destruct (Hnone v Hin). }
  unfold post_login. rewrite Huser, Hmiss. simpl.
  repeat split. intros Hsame. inversion Hsame.
Qed.

(** Ana's email and an unknown email, both without a password. *)
Lemma login_without_password_reveals_account_witness :
  snd (post_login dev_secret false sample_db noon (Some "ana@x.com") None)
  = reply 400 (message "Error al iniciar sesión")
  /\ snd (post_login dev_secret false sample_db noon (Some "eva@x.com") None)
     = reply 400 (message "Credenciales inválidas").
Proof.
  destruct (login_without_password_reveals_account dev_secret false sample_db
              noon ana "ana@x.com" "eva@x.com") as (Hknown & Hunknown & _).
  - reflexivity.
  - intros v [<- | []]. simpl. discriminate.
  - rewrite Hknown, Hunknown. split; reflexivity.
Defined.

(** C10. The body of a successful login is [{user: {id, email, nombre}}]
    built from the row of the user whose email was submitted -- the row
    the lookup by that email finds, whose password bcrypt accepted: the
    inner object has exactly those three fields, its [email] is the
    submitted one, and it has no [password] field. *)
Theorem login_body_fields
        (secret : string) (production : bool) (db db' : DB) (e : env)
        (email password : option string) (r : response) :
  post_login secret production db e email password = (db', r) ->
  status r = 200 ->
  exists m u inner,
    email = Some m
    /\ Sql.select_user_by_email db m = Some u
    /\ In u (users db)
    /\ User.email u = m
    /\ Bcrypt.compare password (User.password u) = Some true
    /\ body r = JObj [("user", inner)]
    /\ inner = JObj [("id", JNum (User.id u));
                     ("email", JStr m);
                     ("nombre", JStr (User.nombre u))]
    /\ keys inner = ["id"; "email"; "nombre"]
    /\ get "password" inner = None.
Proof.
  unfold post_login. intros Hlogin Hstatus.
  destruct email as [m | ]; [ | inversion Hlogin; subst; discriminate ].
  destruct (Sql.select_user_by_email db m) as [u | ] eqn:Hsel;
    [ | inversion Hlogin; subst; discriminate ].
  destruct (Bcrypt.compare password (User.password u)) as [[ | ] | ] eqn:Hpw;
    inversion Hlogin; subst; try discriminate.
  destruct (select_user_some _ _ _ Hsel) as [Hin Hmail].
  exists m, u, (user_json u). unfold user_json. rewrite Hmail.
  repeat split; auto.
Qed.

(** Ana logs in with her password, next to a second user, Eva. *)
Lemma login_body_fields_witness :
  let eva := User.mk 2 "Eva" "eva@x.com" (Bcrypt.mk 10 "salt" "pw9") "t" in
  let db := mkDB [eva; ana] [] [] 2 0 in
  body (snd (post_login dev_secret false db noon
                        (Some "ana@x.com") (Some "pw1")))
  = JObj [("user", JObj [("id", JNum 1); ("email", JStr "ana@x.com");
                         ("nombre", JStr "Ana")])].
Proof.
  intros eva db.
  destruct (login_body_fields dev_secret false db db noon
              (Some "ana@x.com") (Some "pw1")
              (snd (post_login dev_secret false db noon
                               (Some "ana@x.com") (Some "pw1"))))
    as (m & u & inner & Hm & Hsel & _ & _ & _ & Hbody & Hinner & _).
  - reflexivity.
  - reflexivity.
  - inversion Hm. subst m. vm_compute in Hsel. inversion Hsel. subst u.
    rewrite Hbody, Hinner. reflexivity.
Defined.

(** ** Session tokens and the gate *)

Lemma verify_signed (secret : string) (payload : Jwt.claims) (t : Z) :
  Jwt.verify (Jwt.Signed secret payload) secret t
  = if t / 1000 >=? Jwt.exp payload then inl Jwt.TokenExpiredError
    else inr payload.
Proof. simpl. now rewrite String.eqb_refl. Qed.

(** A token issued one millisecond before a second boundary is refused
    999 ms before its seven days are over. *)
Lemma token_expires_within_seven_days :
  let T := 1704067200999 in
  let t := T + seven_days_ms - 999 in
  T <= t < T + seven_days_ms
  /\ Jwt.verify (Jwt.sign 1 "ana@x.com" "Ana" dev_secret JWT_EXPIRES T)
                dev_secret t
     = inl Jwt.TokenExpiredError.
Proof. split; [ unfold seven_days_ms, day_ms; lia | reflexivity ]. Qed.

(** C5, amended. A token issued at clock [T] (milliseconds) carries
    [exp = floor(T / 1000) + 604800] and verifies at clock [t] exactly
    when [floor(t / 1000) < exp]. So it verifies at every [t] at least
    one second short of [T] + 7 days, is refused as expired at every [t]
    from [T] + 7 days on, verifies at [T] + 6 days and is refused at
    [T] + 8 days. *)
Theorem token_lifetime
        (secret mail name : string) (uid T t : Z) :
  let token := Jwt.sign uid mail name secret JWT_EXPIRES T in
  let payload := Jwt.mk uid mail name (T / 1000) (T / 1000 + 604800) in
  (Jwt.verify token secret t = inr payload <-> t / 1000 < T / 1000 + 604800)
  /\ (t + 1000 <= T + seven_days_ms -> Jwt.verify token secret t = inr payload)
  /\ (T + seven_days_ms <= t ->
      Jwt.verify token secret t = inl Jwt.TokenExpiredError)
  /\ Jwt.verify token secret (T + 6 * day_ms) = inr payload
  /\ Jwt.verify token secret (T + 8 * day_ms) = inl Jwt.TokenExpiredError.
Proof.
  intros token payload. subst token. unfold Jwt.sign.
  change JWT_EXPIRES with 604800. fold payload.
  assert (Hlive : forall t', t' / 1000 < T / 1000 + 604800 ->
                             Jwt.verify (Jwt.Signed secret payload) secret t'
                             = inr payload).
  { intros t' Hlt. rewrite verify_signed. simpl Jwt.exp.
    destruct (Z.geb_spec (t' / 1000) (T / 1000 + 604800)); [ lia | auto ]. }
  assert (Hdead : forall t', T / 1000 + 604800 <= t' / 1000 ->
                             Jwt.verify (Jwt.Signed secret payload) secret t'
                             = inl Jwt.TokenExpiredError).
  { intros t' Hge. rewrite verify_signed. simpl Jwt.exp.
    destruct (Z.geb_spec (t' / 1000) (T / 1000 + 604800)); [ auto | lia ]. }
  unfold seven_days_ms, day_ms. repeat split.
  - intros Hok. destruct (Z.lt_ge_cases (t / 1000) (T / 1000 + 604800)); auto.
    rewrite Hdead in Hok by assumption. discriminate.
  - apply Hlive.
  - intros Hle. apply Hlive. Z.to_euclidean_division_equations. lia.
  - intros Hle. apply Hdead. Z.to_euclidean_division_equations. lia.
  - apply Hlive. Z.to_euclidean_division_equations. lia.
  - apply Hdead. Z.to_euclidean_division_equations. lia.
Qed.

(** A token issued at midnight, checked one second before and exactly at
    the end of the seventh day. *)
Lemma token_lifetime_witness :
  let token :=
    Jwt.sign 1 "ana@x.com" "Ana" dev_secret JWT_EXPIRES 1704067200000 in
  Jwt.verify token dev_secret (1704067200000 + seven_days_ms - 1000)
  = inr (Jwt.mk 1 "ana@x.com" "Ana" 1704067200 1704672000)
  /\ Jwt.verify token dev_secret (1704067200000 + seven_days_ms)
     = inl Jwt.TokenExpiredError.
Proof.
  split.
  - destruct (token_lifetime dev_secret "ana@x.com" "Ana" 1 1704067200000
                (1704067200000 + seven_days_ms - 1000))
      as (_ & Hlive & _).
    apply Hlive. unfold seven_days_ms, day_ms. lia.
  - destruct (token_lifetime dev_secret "ana@x.com" "Ana" 1 1704067200000
                (1704067200000 + seven_days_ms))
      as (_ & _ & Hdead & _).
    apply Hdead. unfold seven_days_ms, day_ms. lia.
Defined.

(** A request without a cookie and a request with a cookie that is not a
    token are both answered 401, with different bodies. *)
Lemma missing_token_answer_differs :
  exists r r',
    authMiddleware dev_secret None (now noon) = inl r
    /\ authMiddleware dev_secret (Some (Jwt.Malformed "not.a.jwt")) (now noon)
       = inl r'
    /\ status r = 401 /\ status r' = 401
    /\ body r <> body r'.
Proof.
  exists (reply 401 (message "No autenticado")),
         (reply 401 (message "Token inválido")).
  repeat split; discriminate.
Qed.

(** C6, amended. The gate answers every failure with status 401 and one
    of two bodies: [{message: 'No autenticado'}] when the cookie is
    missing (absent or empty), and [{message: 'Token inválido'}] when a
    token is present and is malformed, signed with another key, or
    expired -- these three are not told apart. On a guarded route the
    handler is then not run and the database is untouched. *)
Theorem gate_rejections (secret : string) (t : Z) :
  (forall c, no_token c = true ->
             authMiddleware secret c t
             = inl (mkResponse 401 (JObj [("message", JStr "No autenticado")])
                               NoCookie))
  /\ (forall token cause,
        no_token (Some token) = false ->
        Jwt.verify token secret t = inl cause ->
        authMiddleware secret (Some token) t
        = inl (mkResponse 401 (JObj [("message", JStr "Token inválido")])
                          NoCookie))
  /\ (forall text, Jwt.verify (Jwt.Malformed text) secret t
                   = inl (Jwt.JsonWebTokenError "jwt malformed"))
  /\ (forall key payload,
        key <> secret ->
        Jwt.verify (Jwt.Signed key payload) secret t
        = inl (Jwt.JsonWebTokenError "invalid signature"))
  /\ (forall payload,
        Jwt.exp payload <= t / 1000 ->
        Jwt.verify (Jwt.Signed secret payload) secret t
        = inl Jwt.TokenExpiredError)
  /\ (forall production fk db e c req r,
        now e = t ->
        guarded_route req = true ->
        authMiddleware secret c t = inl r ->
        status r = 401
        /\ handle secret production fk db e c req = (db, r)).
Proof.
  split; [ | split; [ | split; [ | split; [ | split ] ] ] ].
  - intros [[[ | a text] | key payload] | ] Hmissing; simpl in *;
      try discriminate; reflexivity.
  - intros token cause Hpresent Hfail.
    unfold authMiddleware. now rewrite Hpresent, Hfail.
  - reflexivity.
  - intros key payload Hkey. simpl. apply String.eqb_neq in Hkey.
    now rewrite Hkey.
  - intros payload Hexp. rewrite verify_signed.
    destruct (Z.geb_spec (t / 1000) (Jwt.exp payload)); [ auto | lia ].
  - intros production fk db e c req r Hclock Hroute Hauth. split.
    + unfold authMiddleware in Hauth.
      destruct c as [token | ]; [ | inversion Hauth; reflexivity ].
      destruct (no_token (Some token)); [ inversion Hauth; reflexivity | ].
      destruct (Jwt.verify token secret t); inversion Hauth; reflexivity.
    + subst t. destruct req; try discriminate; simpl; unfold guarded;
        now rewrite Hauth.
Qed.

(** A request carrying a token signed with another key. *)
Lemma gate_rejections_witness :
  authMiddleware dev_secret (Some (Jwt.Signed "other key" ana_session))
                 (now noon)
  = inl (mkResponse 401 (JObj [("message", JStr "Token inválido")]) NoCookie).
Proof.
  destruct (gate_rejections dev_secret (now noon))
    as (_ & Hinvalid & _ & Hkey & _).
  apply (Hinvalid (Jwt.Signed "other key" ana_session)
                  (Jwt.JsonWebTokenError "invalid signature")).
  - reflexivity.
  - apply Hkey. discriminate.
Defined.

(** ** Listing playlists *)

(** Ana's list: the one row has the five fields of the SELECT, the count
    under the name [song_count], and no [songCount] field. *)
Lemma playlist_row_has_no_songCount :
  exists row,
    snd (get_playlists sample_db ana_session)
    = reply 200 (JObj [("playlists", JArr [row])])
    /\ keys row = ["id"; "nombre"; "user_id"; "created_at"; "song_count"]
    /\ keys row <> ["id"; "nombre"; "songCount"]
    /\ get "songCount" row = None
    /\ get "song_count" row = Some (JNum 1).
Proof.
  eexists. split; [ reflexivity | ]. repeat split. discriminate.
Qed.

(** C9, amended. [listPlaylists] answers 200 with [{playlists: rows}],
    one row per playlist of the caller, in table order; a row has the
    fields [id], [nombre], [user_id], [created_at] and [song_count], and
    [song_count] is the number of [playlist_songs] rows that reference the
    playlist in the database the request reads. *)
Theorem list_playlists_rows (db : DB) (user : Jwt.claims) :
  exists rows,
    get_playlists db user = (db, reply 200 (JObj [("playlists", JArr rows)]))
    /\ Forall2 (row_describes db)
               (filter (fun p => Playlist.user_id p =? Jwt.id user)
                       (playlists db))
               rows.
Proof.
  exists (Sql.select_playlists_with_count db (Jwt.id user)).
  split; [ reflexivity | ].
  unfold Sql.select_playlists_with_count.
  induction (filter _ (playlists db)) as [ | p owned IH]; simpl; constructor.
  - unfold row_describes, Sql.playlist_with_count. simpl.
    rewrite song_count_rows. repeat split.
  - exact IH.
Qed.

(** ** Playlists stay, and song rows keep their playlist *)

(** X23. No request removes a playlist: every playlist row of the
    database is still there after any request. In every database the
    server can reach no membership row is orphaned: each
    [playlist_songs] row references an existing playlist. *)
Theorem playlists_kept_no_orphans
        (secret : string) (production fk : bool) (db : DB) :
  reachable secret production fk db ->
  no_orphans db
  /\ forall e c req p,
       In p (playlists db) ->
       In p (playlists (fst (handle secret production fk db e c req))).
Proof.
  intros Hreach. split.
  - now apply (reachable_invariants secret production fk).
  - intros e c req p. apply effect_keeps_playlists. apply handle_effect.
Qed.

(** The database after Ana registered, created a playlist and added a
    song to it. *)
Lemma playlists_kept_no_orphans_witness :
  let db := run empty_db ana_requests in
  reachable dev_secret false true db
  /\ no_orphans db
  /\ map PlaylistSong.song_path (playlist_songs db) = ["/musica/a.mp3"].
Proof.
  intros db.
  assert (Hreach : reachable dev_secret false true db).
  { subst db. unfold run, ana_requests. cbn [fold_left fst snd].
    do 3 apply reachable_step. apply reachable_start. }
  split; [ exact Hreach | ]. split.
  - apply (playlists_kept_no_orphans dev_secret false true db Hreach).
  - reflexivity.
Defined.

(** ** A session from start to end *)

(** Register, log in, create a playlist, add a song, list the songs:
    the five answers, each request served at [noon] with the cookie the
    login set. *)
Example end_to_end :
  let serve db c req := handle dev_secret false true db noon c req in
  let r1 := serve empty_db None
                  (PostRegister (Some "Ana") (Some "ana@x.com") (Some "pw1")) in
  let r2 := serve (fst r1) None (PostLogin (Some "ana@x.com") (Some "pw1")) in
  let c := match cookie (snd r2) with
           | SetToken token _ _ _ => Some token
           | _ => None
           end in
  let r3 := serve (fst r2) c (PostPlaylists (Some "Road Trip")) in
  let r4 := serve (fst r3) c
                  (PostPlaylistSongs (IdInt 1) (Some "/musica/a.mp3")) in
  let r5 := serve (fst r4) c (GetPlaylistSongs (IdInt 1)) in
  status (snd r1) = 201
  /\ status (snd r2) = 200
  /\ snd r3 = reply 201 (JObj [("playlist",
                                JObj [("id", JNum 1);
                                      ("nombre", JStr "Road Trip");
                                      ("user_id", JNum 1);
                                      ("song_count", JNum 0)])])
  /\ status (snd r4) = 201
  /\ snd r5 = reply 200 (JObj [("songs", JArr [JStr "/musica/a.mp3"])]).
Proof. repeat split. Qed.

(** ** What a request changes, and for whom *)

Lemma handle_change (secret : string) (production fk : bool) (db : DB)
      (e : env) (c : option Jwt.token) (req : request) :
  change fk (actor secret c (now e)) db
         (fst (handle secret production fk db e c req)).
Proof.
  unfold actor.
  destruct req; simpl; unfold guarded;
    try (destruct (authMiddleware secret c (now e)) as [r | user];
         simpl; [ constructor | ]).
  - unfold post_register.
    destruct (Bcrypt.hash password 10 (salt e)) as [h | ]; simpl;
      [ | constructor ].
    destruct nombre as [n | ], email as [m | ]; simpl; try constructor.
    destruct (Sql.insert_user db n m h (timestamp e)) eqn:Hins; simpl;
      [ eapply change_user; eauto | constructor ].
  - unfold post_login.
    destruct email as [m | ]; simpl; [ | constructor ].
    destruct (Sql.select_user_by_email db m) as [u | ]; simpl;
      [ | constructor ].
    destruct (Bcrypt.compare password (User.password u)) as [[ | ] | ];
      simpl; constructor.
  - constructor.
  - constructor.
  - unfold post_playlists. destruct nombre as [n | ]; simpl; [ | constructor ].
    destruct (Sql.insert_playlist fk db n (Jwt.id user) (timestamp e))
      as [[db' rowid] | ] eqn:Hins; simpl;
      [ eapply change_playlist; eauto | constructor ].
  - unfold post_playlist_songs.
    destruct (Sql.select_owned_playlist db id (Jwt.id user)) as [p | ] eqn:Hsel;
      simpl; [ | constructor ].
    destruct songPath as [path | ]; simpl; [ | constructor ].
    apply select_owned_some in Hsel. destruct Hsel as (Hin & _ & Huid).
    eapply change_add; eauto.
  - unfold get_playlist_songs.
    destruct (Sql.select_owned_playlist db id (Jwt.id user)); simpl;
      constructor.
  - unfold delete_playlist_song.
    destruct (Sql.select_owned_playlist db playlistId (Jwt.id user))
      as [p | ] eqn:Hsel; simpl; [ | constructor ].
    apply select_owned_some in Hsel. destruct Hsel as (Hin & _ & Huid).
    eapply change_remove; eauto.
Qed.

Lemma insert_user_inv (db db' : DB) (n m : string) (h : Bcrypt.digest)
      (ts : string) :
  Sql.insert_user db n m h ts = Some db' ->
  Sql.select_user_by_email db m = None
  /\ db' = mkDB (users db
                 ++ [User.mk (Sql.next_id User.id (users db) (users_seq db))
                             n m h ts])
                (playlists db) (playlist_songs db)
                (Sql.next_id User.id (users db) (users_seq db))
                (playlists_seq db).
Proof.
  unfold Sql.insert_user.
  destruct (Sql.select_user_by_email db m); [ discriminate | ].
  intros Hins. inversion Hins. auto.
Qed.

Lemma insert_playlist_inv (fk : bool) (db db' : DB) (n ts : string)
      (uid rowid : Z) :
  Sql.insert_playlist fk db n uid ts = Some (db', rowid) ->
  (fk = true -> Sql.user_exists db uid = true)
  /\ rowid = Sql.next_id Playlist.id (playlists db) (playlists_seq db)
  /\ db' = mkDB (users db)
                (playlists db ++ [Playlist.mk rowid n uid ts])
                (playlist_songs db) (users_seq db) rowid.
Proof.
  unfold Sql.insert_playlist.
  destruct fk, (Sql.user_exists db uid); simpl; try discriminate;
    intros Hins; inversion Hins; repeat split; auto; discriminate.
Qed.

Lemma select_user_free (db : DB) (m : string) :
  Sql.select_user_by_email db m = None <->
  forall u, In u (users db) -> User.email u <> m.
Proof.
  unfold Sql.select_user_by_email. split.
  - intros Hnone u Hin Hmail. pose proof (find_none _ _ Hnone u Hin) as Hb.
    simpl in Hb. rewrite Hmail, String.eqb_refl in Hb. discriminate.
  - intros Hfree. destruct (find _ (users db)) as [u | ] eqn:Hfind; auto.
    apply find_some in Hfind. destruct Hfind as [Hin Hb].
    apply String.eqb_eq in Hb. now destruct (Hfree u Hin).
Qed.

Lemma max_id_ge {A : Type} (id : A -> Z) (rows : list A) (r : A) :
  In r rows -> id r <= Sql.max_id id rows.
Proof.
  induction rows as [ | a rows IH]; simpl; [ contradiction | ].
  intros [-> | Hin]; [ lia | specialize (IH Hin); lia ].
Qed.

Lemma max_id_nonneg {A : Type} (id : A -> Z) (rows : list A) :
  0 <= Sql.max_id id rows.
Proof. induction rows as [ | a rows IH]; simpl; lia. Qed.

Lemma next_id_fresh {A : Type} (id : A -> Z) (rows : list A) (seq : Z) (r : A) :
  In r rows -> id r < Sql.next_id id rows seq.
Proof.
  intros Hin. pose proof (max_id_ge id rows r Hin). unfold Sql.next_id. lia.
Qed.

Lemma NoDup_snoc {A : Type} (l : list A) (a : A) :
  NoDup l -> ~ In a l -> NoDup (l ++ [a]).
Proof.
  intros Hl Ha. apply NoDup_app; auto.
  - constructor; [ intros [] | constructor ].
  - intros x Hx [<- | []]. contradiction.
Qed.

Lemma find_snoc_none {A : Type} (f : A -> bool) (l : list A) (a : A) :
  find f l = None -> find f (l ++ [a]) = if f a then Some a else None.
Proof.
  induction l as [ | x l IH]; simpl; auto.
  destruct (f x); [ discriminate | exact IH ].
Qed.

Lemma find_snoc_false {A : Type} (f : A -> bool) (l : list A) (a : A) :
  f a = false -> find f (l ++ [a]) = find f l.
Proof.
  intros Ha. induction l as [ | x l IH]; simpl.
  - now rewrite Ha.
  - destruct (f x); auto.
Qed.


(** ** Registration and login, continued *)

(** X1. Registration answers 201 exactly when the three fields are
    present and no stored user has the email. It then appends one user
    with the given name and email, a digest that matches the password
    and an id above every stored id, and touches neither playlists nor
    songs. In every other case it answers 400 and changes nothing. *)
Theorem register_outcome
        (db : DB) (e : env) (nombre email password : option string) :
  let db' := fst (post_register db e nombre email password) in
  let r := snd (post_register db e nombre email password) in
  (status r = 201 <->
   exists n m pw,
     nombre = Some n /\ email = Some m /\ password = Some pw
     /\ forall u, In u (users db) -> User.email u <> m)
  /\ (status r = 201 ->
      exists u,
        users db' = (users db ++ [u])%list
        /\ nombre = Some (User.nombre u)
        /\ email = Some (User.email u)
        /\ Bcrypt.compare password (User.password u) = Some true
        /\ (forall v, In v (users db) -> User.id v < User.id u)
        /\ playlists db' = playlists db
        /\ playlist_songs db' = playlist_songs db)
  /\ (status r <> 201 ->
      db' = db /\ r = reply 400 (message "Error al registrar usuario")).
Proof.
  unfold post_register.
  destruct password as [pw | ]; simpl;
    [ | repeat split; try discriminate; try congruence;
        intros (n & m & pw & _ & _ & Hpw & _); discriminate ].
  destruct nombre as [n | ]; simpl;
    [ | repeat split; try discriminate; try congruence;
        intros (n & m & pw' & Hn & _); discriminate ].
  destruct email as [m | ]; simpl;
    [ | repeat split; try discriminate; try congruence;
        intros (n' & m & pw' & _ & Hm & _); discriminate ].
  destruct (Sql.insert_user db n m (Bcrypt.mk 10 (salt e) (Bcrypt.key pw))
                            (timestamp e))
    as [db' | ] eqn:Hins; simpl.
  - apply insert_user_inv in Hins. destruct Hins as [Hfree ->]. simpl.
    split; [ split; auto; intros _; exists n, m, pw; repeat split;
             now apply select_user_free | ].
    split; [ | congruence ].
    intros _. eexists. split; [ reflexivity | ]. simpl.
    rewrite String.eqb_refl. repeat split.
    intros v Hv. now apply next_id_fresh.
  - split; [ split; [ discriminate | ] | split; [ discriminate | auto ] ].
    intros (n' & m' & pw' & Hn & Hm & _ & Hfree). inversion Hm; subst m'.
    apply select_user_free in Hfree. unfold Sql.insert_user in Hins.
    rewrite Hfree in Hins. discriminate.
Qed.

(** Eva registers next to Ana. *)
Lemma register_outcome_witness :
  exists u,
    users (fst (post_register sample_db noon (Some "Eva") (Some "eva@x.com")
                              (Some "pw9")))
    = [ana; u]
    /\ User.id u = 2.
Proof.
  destruct (register_outcome sample_db noon (Some "Eva") (Some "eva@x.com")
                             (Some "pw9")) as (_ & Hadded & _).
  destruct Hadded as (u & Husers & _ & _ & _ & _); [ reflexivity | ].
  exists u. split; [ exact Husers | ].
  simpl in Husers. inversion Husers. reflexivity.
Defined.

(** X2. After a successful registration, a login with the same email and
    password answers 200 with the id, email and name of the user row
    the registration stored, and sets the session cookie with a token
    signed for them. *)
Theorem register_then_login
        (secret : string) (production : bool) (db : DB) (e e' : env)
        (n m pw : string) :
  status (snd (post_register db e (Some n) (Some m) (Some pw))) = 201 ->
  let db' := fst (post_register db e (Some n) (Some m) (Some pw)) in
  exists id,
    (forall v, In v (users db) -> User.id v < id)
    /\ (exists u, Sql.select_user_by_email db' m = Some u
                  /\ User.id u = id /\ User.nombre u = n)
    /\ post_login secret production db' e' (Some m) (Some pw)
       = (db',
          mkResponse 200
            (JObj [("user", JObj [("id", JNum id); ("email", JStr m);
                                  ("nombre", JStr n)])])
            (SetToken (Jwt.sign id m n secret JWT_EXPIRES (now e'))
                      true production (7 * 24 * 60 * 60 * 1000))).
Proof.
  unfold post_register. simpl.
  destruct (Sql.insert_user db n m (Bcrypt.mk 10 (salt e) (Bcrypt.key pw))
                            (timestamp e))
    as [db' | ] eqn:Hins; simpl; [ | discriminate ].
  intros _. apply insert_user_inv in Hins. destruct Hins as [Hfree ->].
  exists (Sql.next_id User.id (users db) (users_seq db)).
  split; [ | split ].
  - intros v Hv. now apply next_id_fresh.
  - eexists. unfold Sql.select_user_by_email. simpl.
    rewrite (find_snoc_none _ _ _ Hfree). simpl.
    rewrite String.eqb_refl. auto.
  - unfold post_login, Sql.select_user_by_email. simpl.
    rewrite (find_snoc_none _ _ _ Hfree). simpl.
    now rewrite !String.eqb_refl.
Qed.

(** Eva registers and logs in. *)
Lemma register_then_login_witness :
  exists id,
    (forall v, In v (users sample_db) -> User.id v < id)
    /\ (exists u,
          Sql.select_user_by_email
            (fst (post_register sample_db noon (Some "Eva")
                                (Some "eva@x.com") (Some "pw9")))
            "eva@x.com" = Some u
          /\ User.id u = id /\ User.nombre u = "Eva")
    /\ post_login dev_secret false
                  (fst (post_register sample_db noon (Some "Eva")
                                      (Some "eva@x.com") (Some "pw9")))
                  noon (Some "eva@x.com") (Some "pw9")
       = (fst (post_register sample_db noon (Some "Eva")
                             (Some "eva@x.com") (Some "pw9")),
          mkResponse 200
            (JObj [("user", JObj [("id", JNum id);
                                  ("email", JStr "eva@x.com");
                                  ("nombre", JStr "Eva")])])
            (SetToken (Jwt.sign id "eva@x.com" "Eva" dev_secret JWT_EXPIRES
                                (now noon))
                      true false (7 * 24 * 60 * 60 * 1000))).
Proof.
  apply (register_then_login dev_secret false sample_db noon noon
                             "Eva" "eva@x.com" "pw9").
  reflexivity.
Defined.



(** X4. The cookie of a successful login holds the token signed, at the
    clock of the login, for the id, email and name of the user whose
    email was submitted -- the row the lookup by that email finds. The
    gate accepts it, under the same secret, at every clock whose second
    is before the token's expiry, and resolves it to that user; from
    seven days after the login on, and under any other secret at any
    time, the gate answers 401. The cookie's max age is the token's
    life span in milliseconds. *)
Theorem login_opens_session
        (secret : string) (production : bool) (db db' : DB) (e : env)
        (email password : option string) (r : response) :
  post_login secret production db e email password = (db', r) ->
  status r = 200 ->
  exists m u token,
    email = Some m
    /\ Sql.select_user_by_email db m = Some u
    /\ In u (users db)
    /\ User.email u = m
    /\ token = Jwt.sign (User.id u) m (User.nombre u) secret JWT_EXPIRES
                        (now e)
    /\ cookie r = SetToken token true production (1000 * JWT_EXPIRES)
    /\ (forall clock,
          clock / 1000 < now e / 1000 + JWT_EXPIRES ->
          exists who,
            authMiddleware secret (Some token) clock = inr who
            /\ Jwt.id who = User.id u
            /\ Jwt.email who = m
            /\ Jwt.nombre who = User.nombre u)
    /\ (forall clock,
          now e + 1000 * JWT_EXPIRES <= clock ->
          authMiddleware secret (Some token) clock
          = inl (reply 401 (message "Token inválido")))
    /\ (forall other clock,
          other <> secret ->
          authMiddleware other (Some token) clock
          = inl (reply 401 (message "Token inválido"))).
Proof.
  unfold post_login. intros Hlogin Hstatus.
  destruct email as [m | ]; [ | inversion Hlogin; subst; discriminate ].
  destruct (Sql.select_user_by_email db m) as [u | ] eqn:Hsel;
    [ | inversion Hlogin; subst; discriminate ].
  destruct (Bcrypt.compare password (User.password u)) as [[ | ] | ];
    inversion Hlogin; subst; try discriminate.
  destruct (select_user_some _ _ _ Hsel) as [Hin Hmail].
  exists m, u. eexists.
  split; [ reflexivity | ]. split; [ exact Hsel | ].
  split; [ exact Hin | ]. split; [ exact Hmail | ].
  split; [ reflexivity | ].
  split; [ simpl; now rewrite Hmail | ].
  unfold authMiddleware, Jwt.sign. cbn [no_token].
  split; [ | split ].
  - intros clock Hlive. rewrite verify_signed. cbn [Jwt.exp].
    destruct (Z.geb_spec (clock / 1000) (now e / 1000 + JWT_EXPIRES));
      [ lia | ].
    eexists. split; [ reflexivity | ]. auto.
  - intros clock Hdead. rewrite verify_signed. cbn [Jwt.exp].
    destruct (Z.geb_spec (clock / 1000) (now e / 1000 + JWT_EXPIRES));
      [ reflexivity | ].
    exfalso. unfold JWT_EXPIRES in *.
    Z.to_euclidean_division_equations. lia.
  - intros other clock Hother. simpl. apply String.eqb_neq in Hother.
    rewrite String.eqb_sym. now rewrite Hother.
Qed.

(** Ana logs in at noon, next to a second user, Eva; six days later the
    gate still knows her as user 1. *)
Lemma login_opens_session_witness :
  let eva := User.mk 2 "Eva" "eva@x.com" (Bcrypt.mk 10 "salt" "pw9") "t" in
  let db := mkDB [eva; ana] [] [] 2 0 in
  exists token who,
    cookie (snd (post_login dev_secret false db noon
                            (Some "ana@x.com") (Some "pw1")))
    = SetToken token true false (1000 * JWT_EXPIRES)
    /\ authMiddleware dev_secret (Some token) (now noon + 6 * day_ms)
       = inr who
    /\ Jwt.id who = 1
    /\ Jwt.email who = "ana@x.com".
Proof.
  intros eva db.
  destruct (login_opens_session dev_secret false db db noon
              (Some "ana@x.com") (Some "pw1")
              (snd (post_login dev_secret false db noon
                               (Some "ana@x.com") (Some "pw1"))))
    as (m & u & token & Hm & Hsel & _ & _ & _ & Hcookie & Hlive & _).
  - reflexivity.
  - reflexivity.
  - inversion Hm. subst m. vm_compute in Hsel. inversion Hsel. subst u.
    destruct (Hlive (now noon + 6 * day_ms)) as (who & Hwho & Hid & Hmail & _).
    + vm_compute. reflexivity.
    + exists token, who. auto.
Defined.

(** ** What requests leave alone *)

Ltac split_handler :=
  repeat match goal with
         | |- context [match ?x with _ => _ end] => destruct x eqn:?
         end.

(** X5. Login, logout and the two GET routes never change the
    database, whatever they answer. *)
Theorem read_only_requests
        (secret : string) (production fk : bool) (db : DB) (e : env)
        (c : option Jwt.token) (req : request) :
  read_only req = true ->
  fst (handle secret production fk db e c req) = db.
Proof.
  destruct req; simpl; try discriminate; intros _;
    unfold guarded, post_login, post_logout, get_playlists,
      get_playlist_songs;
    split_handler; reflexivity.
Qed.

(** Ana lists her songs. *)
Lemma read_only_requests_witness :
  fst (handle dev_secret false true sample_db noon
              (Some (Jwt.Signed dev_secret ana_session))
              (GetPlaylistSongs (IdInt 1)))
  = sample_db.
Proof.
  apply (read_only_requests dev_secret false true sample_db noon
           (Some (Jwt.Signed dev_secret ana_session))
           (GetPlaylistSongs (IdInt 1))).
  reflexivity.
Defined.

(** X6. A request answered with an error status (400 or above) leaves
    the database exactly as it was. *)
Theorem errors_change_nothing
        (secret : string) (production fk : bool) (db : DB) (e : env)
        (c : option Jwt.token) (req : request) :
  400 <= status (snd (handle secret production fk db e c req)) ->
  fst (handle secret production fk db e c req) = db.
Proof.
  destruct req; simpl;
    unfold guarded, post_register, post_login, post_logout, get_playlists,
      post_playlists, post_playlist_songs, get_playlist_songs,
      delete_playlist_song;
    split_handler; simpl; intros Hstatus; try reflexivity; lia.
Qed.

(** A playlist without a name. *)
Lemma errors_change_nothing_witness :
  fst (handle dev_secret false true sample_db noon
              (Some (Jwt.Signed dev_secret ana_session))
              (PostPlaylists None))
  = sample_db.
Proof.
  apply (errors_change_nothing dev_secret false true sample_db noon
           (Some (Jwt.Signed dev_secret ana_session)) (PostPlaylists None)).
  vm_compute. discriminate.
Defined.

(** ** Keys of the tables in reachable databases *)

Lemma insert_song_frame (db : DB) (pid : Z) (path ts : string) :
  let db' := Sql.insert_or_ignore_song db pid path ts in
  users db' = users db /\ playlists db' = playlists db
  /\ users_seq db' = users_seq db /\ playlists_seq db' = playlists_seq db.
Proof.
  unfold Sql.insert_or_ignore_song.
  destruct (existsb _ (playlist_songs db)); simpl; auto.
Qed.

Lemma change_users_ok (fk : bool) (who : option Z) (db db' : DB) :
  change fk who db db' -> users_ok db -> users_ok db'.
Proof.
  intros Hchange (Hmail & Hid & Hseq).
  destruct Hchange as [ | n m h ts db' Hins
                        | uid n ts db' rowid Hwho Hins
                        | uid p path ts Hwho Hin Hown
                        | uid p path Hwho Hin Hown ].
  - exact (conj Hmail (conj Hid Hseq)).
  - apply insert_user_inv in Hins. destruct Hins as [Hfree ->].
    pose proof (max_id_nonneg User.id (users db)) as Hnew.
    unfold users_ok. simpl. rewrite !map_app. simpl.
    split; [ | split ].
    + apply NoDup_snoc; auto. intros Hdup. apply in_map_iff in Hdup.
      destruct Hdup as (u & Hu & Hin).
      now apply (proj1 (select_user_free db m) Hfree u).
    + apply NoDup_snoc; auto. intros Hdup. apply in_map_iff in Hdup.
      destruct Hdup as (u & Hu & Hin). specialize (Hseq u Hin).
      unfold Sql.next_id in Hu. lia.
    + intros u Hu. apply in_app_or in Hu.
      destruct Hu as [Hold | [<- | []]]; simpl; unfold Sql.next_id;
        [ specialize (Hseq u Hold) | ]; lia.
  - apply insert_playlist_inv in Hins. destruct Hins as (_ & _ & ->).
    exact (conj Hmail (conj Hid Hseq)).
  - destruct (insert_song_frame db (Playlist.id p) path ts)
      as (Hu & _ & Hs & _).
    unfold users_ok. rewrite Hu, Hs. auto.
  - exact (conj Hmail (conj Hid Hseq)).
Qed.

Lemma change_playlists_ok (fk : bool) (who : option Z) (db db' : DB) :
  change fk who db db' -> playlists_ok db -> playlists_ok db'.
Proof.
  intros Hchange (Hid & Hseq).
  destruct Hchange as [ | n m h ts db' Hins
                        | uid n ts db' rowid Hwho Hins
                        | uid p path ts Hwho Hin Hown
                        | uid p path Hwho Hin Hown ].
  - split; auto.
  - apply insert_user_inv in Hins. destruct Hins as [_ ->]. split; auto.
  - apply insert_playlist_inv in Hins. destruct Hins as (_ & -> & ->).
    pose proof (max_id_nonneg Playlist.id (playlists db)) as Hnew.
    unfold playlists_ok. simpl. rewrite map_app. simpl. split.
    + apply NoDup_snoc; auto. intros Hdup. apply in_map_iff in Hdup.
      destruct Hdup as (q & Hq & Hin). specialize (Hseq q Hin).
      unfold Sql.next_id in Hq. lia.
    + intros q Hq. apply in_app_or in Hq.
      destruct Hq as [Hold | [<- | []]]; simpl; unfold Sql.next_id;
        [ specialize (Hseq q Hold) | ]; lia.
  - destruct (insert_song_frame db (Playlist.id p) path ts)
      as (_ & Hp & _ & Hs).
    unfold playlists_ok. rewrite Hp, Hs. auto.
  - split; auto.
Qed.

Lemma change_owners_exist (who : option Z) (db db' : DB) :
  change true who db db' -> owners_exist db -> owners_exist db'.
Proof.
  intros Hchange Hfk.
  destruct Hchange as [ | n m h ts db' Hins
                        | uid n ts db' rowid Hwho Hins
                        | uid p path ts Hwho Hin Hown
                        | uid p path Hwho Hin Hown ]; auto.
  - apply insert_user_inv in Hins. destruct Hins as [_ ->].
    intros p Hp. destruct (Hfk p Hp) as (u & Hu & Hid).
    exists u. simpl. split; auto. apply in_or_app. auto.
  - apply insert_playlist_inv in Hins. destruct Hins as (Hparent & _ & ->).
    intros p Hp. simpl in *. apply in_app_or in Hp.
    destruct Hp as [Hold | [<- | []]]; [ now apply Hfk | ].
    specialize (Hparent eq_refl). unfold Sql.user_exists in Hparent.
    apply existsb_exists in Hparent. destruct Hparent as (u & Hu & Hid).
    apply Z.eqb_eq in Hid. exists u. auto.
  - destruct (insert_song_frame db (Playlist.id p) path ts)
      as (Hu & Hp & _).
    unfold owners_exist. rewrite Hu, Hp. exact Hfk.
Qed.

(** X7. In every database the server can reach, no two users share an
    email, no two users share an id, and every user id is positive and
    at most the sequence of the table. *)
Theorem reachable_users_ok
        (secret : string) (production fk : bool) (db : DB) :
  reachable secret production fk db -> users_ok db.
Proof.
  induction 1 as [ | db e c req Hreach IH].
  - repeat split; simpl; try constructor; contradiction.
  - eapply change_users_ok; [ apply handle_change | exact IH ].
Qed.

(** The database after Ana's three requests. *)
Lemma reachable_users_ok_witness : users_ok (run empty_db ana_requests).
Proof.
  apply (reachable_users_ok dev_secret false true).
  unfold run, ana_requests. cbn [fold_left fst snd].
  do 3 apply reachable_step. apply reachable_start.
Defined.

(** X8. In every database the server can reach, no two playlists share
    an id and every playlist id is positive and at most the sequence of
    the table; when the engine enforces foreign keys, every playlist
    belongs to a stored user. *)
Theorem reachable_playlists_ok
        (secret : string) (production fk : bool) (db : DB) :
  reachable secret production fk db ->
  playlists_ok db /\ (fk = true -> owners_exist db).
Proof.
  induction 1 as [ | db e c req Hreach [IHkey IHfk]].
  - split; [ split; simpl; [ constructor | contradiction ] | ].
    intros _ p [].
  - split.
    + eapply change_playlists_ok; [ apply handle_change | exact IHkey ].
    + intros ->. eapply change_owners_exist; [ apply handle_change | auto ].
Qed.

(** The database after Ana's three requests. *)
Lemma reachable_playlists_ok_witness :
  playlists_ok (run empty_db ana_requests)
  /\ owners_exist (run empty_db ana_requests).
Proof.
  destruct (reachable_playlists_ok dev_secret false true
              (run empty_db ana_requests)) as [Hkey Hfk].
  - unfold run, ana_requests. cbn [fold_left fst snd].
    do 3 apply reachable_step. apply reachable_start.
  - split; [ exact Hkey | now apply Hfk ].
Defined.

(** ** The order of the primary-key index *)

Lemma ascii_compare_refl (a : Ascii.ascii) : Ascii.compare a a = Eq.
Proof. unfold Ascii.compare. apply N.compare_refl. Qed.

Lemma string_compare_trans (a : string) :
  forall b c,
    String.compare a b <> Gt -> String.compare b c <> Gt ->
    String.compare a c <> Gt.
Proof.
  induction a as [ | x a IH]; intros [ | y b] [ | z c]; simpl;
    try congruence.
  destruct (Ascii.compare x y) eqn:Hxy; try congruence;
    destruct (Ascii.compare y z) eqn:Hyz; try congruence.
  - apply Ascii.compare_eq_iff in Hxy, Hyz. subst.
    rewrite ascii_compare_refl. apply IH.
  - apply Ascii.compare_eq_iff in Hxy. subst. rewrite Hyz. congruence.
  - apply Ascii.compare_eq_iff in Hyz. subst. rewrite Hxy. congruence.
  - unfold Ascii.compare in *. rewrite N.compare_lt_iff in Hxy, Hyz.
    assert (Hxz : (Ascii.N_of_ascii x < Ascii.N_of_ascii z)%N) by lia.
    apply N.compare_lt_iff in Hxz. rewrite Hxz. congruence.
Qed.

Lemma leb_trans (a b c : string) :
  String.leb a b = true -> String.leb b c = true -> String.leb a c = true.
Proof.
  unfold String.leb. intros Hab Hbc.
  pose proof (string_compare_trans a b c) as Htrans.
  destruct (String.compare a b), (String.compare b c),
    (String.compare a c); try discriminate; try reflexivity;
    exfalso; apply Htrans; congruence.
Qed.

Lemma leb_false_ge (a b : string) :
  String.leb a b = false -> String.leb b a = true.
Proof.
  intros Hab. destruct (String.leb_total a b); congruence.
Qed.

Lemma insert_path_perm (path : string) (l : list string) :
  Permutation (Sql.insert_path path l) (path :: l).
Proof.
  induction l as [ | q l IH]; simpl; auto.
  destruct (String.leb path q); auto.
  rewrite IH. apply perm_swap.
Qed.

Lemma index_order_perm (l : list string) :
  Permutation (Sql.index_order l) l.
Proof.
  induction l as [ | q l IH]; simpl; auto.
  rewrite insert_path_perm. now constructor.
Qed.

Lemma insert_path_ascending (path : string) (l : list string) :
  ascending l -> ascending (Sql.insert_path path l).
Proof.
  unfold ascending. induction 1 as [ | q l Hl IH Hq]; simpl.
  - repeat constructor.
  - destruct (String.leb path q) eqn:Hle.
    + constructor; [ constructor; auto | ].
      constructor; auto.
      eapply Forall_impl; [ | exact Hq ].
      intros x Hx. now apply (leb_trans path q x).
    + constructor; auto.
      apply (Permutation_Forall (Permutation_sym (insert_path_perm path l))).
      constructor; auto. now apply leb_false_ge.
Qed.

Lemma index_order_ascending (l : list string) :
  ascending (Sql.index_order l).
Proof.
  induction l as [ | q l IH]; simpl.
  - constructor.
  - now apply insert_path_ascending.
Qed.

Lemma ascending_unique (l1 : list string) :
  forall l2, ascending l1 -> ascending l2 -> Permutation l1 l2 -> l1 = l2.
Proof.
  unfold ascending.
  induction l1 as [ | a l1 IH]; intros l2 H1 H2 Hperm.
  - apply Permutation_nil in Hperm. now subst.
  - destruct l2 as [ | b l2];
      [ apply Permutation_sym, Permutation_nil in Hperm; discriminate | ].
    inversion H1 as [ | a' l1' Hs1 Ha ]; subst.
    inversion H2 as [ | b' l2' Hs2 Hb ]; subst.
    assert (Heq : a = b).
    { assert (Hin_a : In a (b :: l2))
        by (apply (Permutation_in _ Hperm); now left).
      assert (Hin_b : In b (a :: l1))
        by (apply (Permutation_in _ (Permutation_sym Hperm)); now left).
      destruct Hin_a as [-> | Hin_a]; auto.
      destruct Hin_b as [-> | Hin_b]; auto.
      rewrite Forall_forall in Ha, Hb.
      apply String.leb_antisym; auto. }
    subst b. f_equal. apply IH; auto.
    now apply Permutation_cons_inv in Hperm.
Qed.

Lemma filter_perm {A : Type} (f : A -> bool) (l l' : list A) :
  Permutation l l' -> Permutation (filter f l) (filter f l').
Proof.
  induction 1 as [ | x l l' Hp IH | x y l | l l' l'' H1 IH1 H2 IH2 ]; simpl.
  - constructor.
  - destruct (f x); auto.
  - destruct (f x), (f y); auto. apply perm_swap.
  - now transitivity (filter f l').
Qed.

Lemma filter_ascending (f : string -> bool) (l : list string) :
  ascending l -> ascending (filter f l).
Proof.
  unfold ascending. induction 1 as [ | q l Hl IH Hq]; simpl.
  - constructor.
  - destruct (f q); auto. constructor; auto.
    rewrite Forall_forall in *. intros x Hx. apply filter_In in Hx.
    apply Hq. tauto.
Qed.

Lemma index_order_filter (f : string -> bool) (l : list string) :
  filter f (Sql.index_order l) = Sql.index_order (filter f l).
Proof.
  apply ascending_unique.
  - apply filter_ascending, index_order_ascending.
  - apply index_order_ascending.
  - transitivity (filter f l).
    + apply filter_perm, index_order_perm.
    + apply Permutation_sym, index_order_perm.
Qed.

Lemma index_order_snoc (l : list string) (path : string) :
  Sql.index_order (l ++ [path]) = Sql.insert_path path (Sql.index_order l).
Proof.
  apply ascending_unique.
  - apply index_order_ascending.
  - apply insert_path_ascending, index_order_ascending.
  - transitivity (l ++ [path])%list; [ apply index_order_perm | ].
    transitivity (path :: l);
      [ apply Permutation_sym, Permutation_cons_append | ].
    transitivity (path :: Sql.index_order l);
      [ constructor; apply Permutation_sym, index_order_perm | ].
    apply Permutation_sym, insert_path_perm.
Qed.

Lemma insert_path_split (path : string) (l : list string) :
  exists before after,
    l = (before ++ after)%list
    /\ Sql.insert_path path l = (before ++ path :: after)%list.
Proof.
  induction l as [ | q l (before & after & Hl & Hins)]; simpl.
  - exists [], []. auto.
  - destruct (String.leb path q).
    + exists [], (q :: l). auto.
    + exists (q :: before), after. simpl. now rewrite <- Hl, Hins.
Qed.

(** ** Playlists and their songs, continued *)

Lemma select_paths_perm (db : DB) (pid : Z) :
  Permutation (Sql.select_song_paths db pid)
              (map PlaylistSong.song_path
                   (filter (fun r => PlaylistSong.playlist_id r =? pid)
                           (playlist_songs db))).
Proof. apply index_order_perm. Qed.

Lemma paths_memberships (db : DB) (pid : Z) (path : string) :
  count_occ string_dec (Sql.select_song_paths db pid) path
  = memberships db pid path.
Proof.
  rewrite (proj1 (Permutation_count_occ string_dec _ _)
                 (select_paths_perm db pid) path).
  unfold memberships, Sql.is_song.
  induction (playlist_songs db) as [ | r rows IH]; simpl; auto.
  destruct (PlaylistSong.playlist_id r =? pid); simpl; auto.
  destruct (string_dec (PlaylistSong.song_path r) path) as [Heq | Hne].
  - apply String.eqb_eq in Heq. rewrite Heq. simpl. now rewrite IH.
  - apply String.eqb_neq in Hne. now rewrite Hne.
Qed.

Lemma paths_nodup (db : DB) (pid : Z) :
  song_key_unique db -> NoDup (Sql.select_song_paths db pid).
Proof.
  intros Hpk. apply (NoDup_count_occ string_dec). intros path.
  rewrite paths_memberships. apply Hpk.
Qed.

Lemma listed_iff_member (db : DB) (pid : Z) (path : string) :
  In path (Sql.select_song_paths db pid)
  <-> existsb (Sql.is_song pid path) (playlist_songs db) = true.
Proof.
  rewrite existsb_memberships, <- paths_memberships.
  rewrite (count_occ_In string_dec). lia.
Qed.

Lemma paths_after_add (db : DB) (pid pid' : Z) (path ts : string) :
  Sql.select_song_paths (Sql.insert_or_ignore_song db pid path ts) pid'
  = if (pid =? pid')
       && negb (existsb (Sql.is_song pid path) (playlist_songs db))
    then Sql.insert_path path (Sql.select_song_paths db pid')
    else Sql.select_song_paths db pid'.
Proof.
  unfold Sql.insert_or_ignore_song.
  destruct (existsb _ (playlist_songs db)); simpl.
  - now rewrite andb_false_r.
  - rewrite andb_true_r. unfold Sql.select_song_paths. simpl.
    rewrite filter_app, map_app. simpl.
    destruct (pid =? pid'); simpl.
    + apply index_order_snoc.
    + now rewrite app_nil_r.
Qed.

Lemma raw_paths_after_remove (rows : list PlaylistSong.t) (pid pid' : Z)
      (path : string) :
  map PlaylistSong.song_path
      (filter (fun r => PlaylistSong.playlist_id r =? pid')
              (filter (fun r => negb (Sql.is_song pid path r)) rows))
  = if pid =? pid'
    then filter (fun q => negb (String.eqb q path))
                (map PlaylistSong.song_path
                     (filter (fun r => PlaylistSong.playlist_id r =? pid')
                             rows))
    else map PlaylistSong.song_path
             (filter (fun r => PlaylistSong.playlist_id r =? pid') rows).
Proof.
  unfold Sql.is_song.
  destruct (Z.eqb_spec pid pid') as [<- | Hp].
  - induction rows as [ | r rows IH]; simpl; auto.
    destruct (PlaylistSong.playlist_id r =? pid) eqn:Hr; simpl.
    + destruct (String.eqb (PlaylistSong.song_path r) path); simpl;
        rewrite ?Hr; simpl; now rewrite IH.
    + rewrite Hr. exact IH.
  - induction rows as [ | r rows IH]; simpl; auto.
    destruct (Z.eqb_spec (PlaylistSong.playlist_id r) pid) as [Hr | Hr]; simpl.
    + assert (Hother : (PlaylistSong.playlist_id r =? pid') = false)
        by (apply Z.eqb_neq; congruence).
      destruct (String.eqb (PlaylistSong.song_path r) path); simpl;
        rewrite ?Hother; exact IH.
    + destruct (PlaylistSong.playlist_id r =? pid'); simpl; now rewrite IH.
Qed.

Lemma paths_after_remove (db : DB) (pid pid' : Z) (path : string) :
  Sql.select_song_paths (Sql.delete_song db pid path) pid'
  = if pid =? pid'
    then filter (fun q => negb (String.eqb q path))
                (Sql.select_song_paths db pid')
    else Sql.select_song_paths db pid'.
Proof.
  unfold Sql.select_song_paths, Sql.delete_song. simpl.
  rewrite raw_paths_after_remove.
  destruct (pid =? pid'); [ | reflexivity ].
  symmetry. apply index_order_filter.
Qed.

Lemma song_count_paths (db : DB) (pid : Z) :
  Sql.song_count db pid = Z.of_nat (List.length (Sql.select_song_paths db pid)).
Proof.
  rewrite (Permutation_length (select_paths_perm db pid)).
  unfold Sql.song_count. now rewrite length_map.
Qed.

Lemma owned_rows_ext (db db' : DB) (l : list Playlist.t) :
  (forall p, In p l -> Sql.song_count db' (Playlist.id p)
                       = Sql.song_count db (Playlist.id p)) ->
  map (Sql.playlist_with_count db') l = map (Sql.playlist_with_count db) l.
Proof.
  intros Hsame. apply map_ext_in. intros p Hp.
  unfold Sql.playlist_with_count. now rewrite Hsame.
Qed.

(** X9. When [createPlaylist] answers 201 in a database without orphaned
    song rows, the id it reports is above every earlier playlist id, the
    caller owns the new playlist, the playlist has no song rows (the
    [song_count: 0] of the answer is true), and the caller's next
    [listPlaylists] is the earlier list followed by the new playlist. *)
Theorem create_playlist_listed
        (fk : bool) (db : DB) (e : env) (user : Jwt.claims) (n : string) :
  no_orphans db ->
  status (snd (post_playlists fk db e user (Some n))) = 201 ->
  let db' := fst (post_playlists fk db e user (Some n)) in
  exists rowid,
    snd (post_playlists fk db e user (Some n))
    = reply 201 (JObj [("playlist",
                        JObj [("id", JNum rowid); ("nombre", JStr n);
                              ("user_id", JNum (Jwt.id user));
                              ("song_count", JNum 0)])])
    /\ (forall p, In p (playlists db) -> Playlist.id p < rowid)
    /\ owns db' (Jwt.id user) (IdInt rowid)
    /\ rows_of db' rowid = 0%nat
    /\ snd (get_playlists db' user)
       = reply 200
           (JObj [("playlists",
                   JArr (Sql.select_playlists_with_count db (Jwt.id user)
                         ++ [JObj [("id", JNum rowid); ("nombre", JStr n);
                                   ("user_id", JNum (Jwt.id user));
                                   ("created_at", JStr (timestamp e));
                                   ("song_count", JNum 0)]]))]).
Proof.
  intros Hfk. unfold post_playlists.
  destruct (Sql.insert_playlist fk db n (Jwt.id user) (timestamp e))
    as [[db' rowid] | ] eqn:Hins; simpl; [ | discriminate ].
  intros _. apply insert_playlist_inv in Hins.
  destruct Hins as (_ & Hrowid & ->).
  assert (Hfresh : forall p, In p (playlists db) -> Playlist.id p < rowid).
  { intros p Hp. rewrite Hrowid. now apply next_id_fresh. }
  assert (Hrows : rows_of
                    (mkDB (users db)
                          (playlists db
                           ++ [Playlist.mk rowid n (Jwt.id user) (timestamp e)])
                          (playlist_songs db) (users_seq db) rowid)
                    rowid = 0%nat).
  { unfold rows_of. simpl. apply count_occ_not_In. intros Hin.
    apply in_map_iff in Hin. destruct Hin as (r & Hr & Hin).
    destruct (Hfk r Hin) as (p & Hp & Hid). specialize (Hfresh p Hp). lia. }
  exists rowid. split; [ reflexivity | ]. split; [ exact Hfresh | ].
  split; [ | split; [ exact Hrows | ] ].
  - eexists. split; [ simpl; apply in_or_app; right; left; reflexivity | ].
    simpl. auto.
  - unfold get_playlists, Sql.select_playlists_with_count. simpl.
    rewrite filter_app, map_app. simpl. rewrite Z.eqb_refl. simpl.
    unfold Sql.playlist_with_count at 2. simpl.
    rewrite song_count_rows, Hrows. reflexivity.
Qed.

(** Ana creates a second playlist. *)
Lemma create_playlist_listed_witness :
  exists rowid,
    snd (post_playlists true sample_db noon ana_session (Some "Cumbia"))
    = reply 201 (JObj [("playlist",
                        JObj [("id", JNum rowid); ("nombre", JStr "Cumbia");
                              ("user_id", JNum 1); ("song_count", JNum 0)])])
    /\ rowid = 2.
Proof.
  destruct (create_playlist_listed true sample_db noon ana_session "Cumbia")
    as (rowid & Hanswer & _).
  - intros r [<- | []]. exists road_trip. simpl. auto.
  - reflexivity.
  - exists rowid. split; [ exact Hanswer | ].
    simpl in Hanswer. inversion Hanswer. reflexivity.
Defined.

(** X10. After [addSong] on an owned playlist, [listSongs] of that
    playlist contains the path and is in ascending byte order of the
    paths, the order of the primary-key index: it is the earlier list if
    the path was in it, and the earlier list with the path put in at
    its place if not. Under the primary key the list has no
    duplicate. *)
Theorem add_song_listed
        (db : DB) (e : env) (user : Jwt.claims) (id : route_id)
        (path : string) :
  owns db (Jwt.id user) id ->
  let db' := fst (post_playlist_songs db e user id (Some path)) in
  exists pid,
    id = IdInt pid
    /\ snd (get_playlist_songs db' user id)
       = reply 200 (songs_body (Sql.select_song_paths db' pid))
    /\ In path (Sql.select_song_paths db' pid)
    /\ ascending (Sql.select_song_paths db' pid)
    /\ (In path (Sql.select_song_paths db pid) ->
        Sql.select_song_paths db' pid = Sql.select_song_paths db pid)
    /\ (~ In path (Sql.select_song_paths db pid) ->
        exists before after,
          Sql.select_song_paths db pid = (before ++ after)%list
          /\ Sql.select_song_paths db' pid
             = (before ++ path :: after)%list)
    /\ (song_key_unique db -> NoDup (Sql.select_song_paths db' pid)).
Proof.
  intros Hown. destruct (select_owned_owns _ _ _ Hown) as [p Hsel].
  destruct (select_owned_some _ _ _ _ Hsel) as (Hin & Hid & Huid).
  unfold post_playlist_songs. rewrite Hsel. cbn [fst snd].
  set (db' := Sql.insert_or_ignore_song db (Playlist.id p) path (timestamp e)).
  assert (Hsel' : Sql.select_owned_playlist db' id (Jwt.id user) = Some p).
  { subst db'. unfold Sql.insert_or_ignore_song.
    destruct (existsb _ (playlist_songs db)); exact Hsel. }
  assert (Hpaths := paths_after_add db (Playlist.id p) (Playlist.id p) path
                                    (timestamp e)).
  fold db' in Hpaths. rewrite Z.eqb_refl in Hpaths. simpl in Hpaths.
  exists (Playlist.id p). split; [ exact Hid | ].
  split; [ unfold get_playlist_songs; now rewrite Hsel' | ].
  split; [ | split; [ | split; [ | split ] ] ].
  - rewrite Hpaths.
    destruct (existsb _ (playlist_songs db)) eqn:Hex; simpl.
    + now apply listed_iff_member.
    + apply (Permutation_in _ (Permutation_sym (insert_path_perm _ _))).
      now left.
  - apply index_order_ascending.
  - intros Hold. apply listed_iff_member in Hold.
    now rewrite Hpaths, Hold.
  - intros Hnew. rewrite Hpaths.
    destruct (existsb _ (playlist_songs db)) eqn:Hex; simpl.
    + apply listed_iff_member in Hex. contradiction.
    + apply insert_path_split.
  - intros Hpk. apply paths_nodup. subst db'.
    eapply effect_song_key_unique; [ | exact Hpk ].
    now apply effect_add.
Qed.

(** Ana adds "/musica/0.mp3" after "/musica/a.mp3": it is listed
    first. *)
Lemma add_song_listed_witness :
  snd (get_playlist_songs
         (fst (post_playlist_songs sample_db noon ana_session (IdInt 1)
                                   (Some "/musica/0.mp3")))
         ana_session (IdInt 1))
  = reply 200 (songs_body ["/musica/0.mp3"; "/musica/a.mp3"]).
Proof.
  destruct (add_song_listed sample_db noon ana_session (IdInt 1)
                            "/musica/0.mp3")
    as (pid & Hid & Hlist & _).
  - exists road_trip. simpl. auto.
  - inversion Hid. subst pid. rewrite Hlist. reflexivity.
Defined.

(** X11. After [removeSong] on an owned playlist, [listSongs] of that
    playlist is the earlier list without the path, the other paths in
    their order; the lists of all other playlists are as before. *)
Theorem remove_song_unlisted
        (db : DB) (user : Jwt.claims) (id : route_id) (path : string) :
  owns db (Jwt.id user) id ->
  let db' := fst (delete_playlist_song db user id path) in
  exists pid,
    id = IdInt pid
    /\ snd (get_playlist_songs db' user id)
       = reply 200 (songs_body (Sql.select_song_paths db' pid))
    /\ Sql.select_song_paths db' pid
       = filter (fun q => negb (String.eqb q path))
                (Sql.select_song_paths db pid)
    /\ ~ In path (Sql.select_song_paths db' pid)
    /\ forall other, other <> pid ->
                     Sql.select_song_paths db' other
                     = Sql.select_song_paths db other.
Proof.
  intros Hown. destruct (select_owned_owns _ _ _ Hown) as [p Hsel].
  destruct (select_owned_some _ _ _ _ Hsel) as (Hin & Hid & Huid).
  unfold delete_playlist_song. rewrite Hsel. cbn [fst snd].
  exists (Playlist.id p). split; [ exact Hid | ].
  assert (Hpaths := paths_after_remove db (Playlist.id p) (Playlist.id p) path).
  rewrite Z.eqb_refl in Hpaths.
  split; [ | split; [ exact Hpaths | split ] ].
  - unfold get_playlist_songs.
    assert (Hsel' : Sql.select_owned_playlist
                      (Sql.delete_song db (Playlist.id p) path) id (Jwt.id user)
                    = Some p) by exact Hsel.
    now rewrite Hsel'.
  - rewrite Hpaths. intros Hstill. apply filter_In in Hstill.
    destruct Hstill as [_ Hb]. rewrite String.eqb_refl in Hb. discriminate.
  - intros other Hother. rewrite paths_after_remove.
    destruct (Z.eqb_spec (Playlist.id p) other); [ congruence | reflexivity ].
Qed.

(** Ana removes her only song. *)
Lemma remove_song_unlisted_witness :
  snd (get_playlist_songs
         (fst (delete_playlist_song sample_db ana_session (IdInt 1)
                                    "/musica/a.mp3"))
         ana_session (IdInt 1))
  = reply 200 (songs_body []).
Proof.
  destruct (remove_song_unlisted sample_db ana_session (IdInt 1)
                                 "/musica/a.mp3")
    as (pid & Hid & Hlist & Hpaths & _).
  - exists road_trip. simpl. auto.
  - inversion Hid. subst pid. rewrite Hlist, Hpaths. reflexivity.
Defined.

(** ** Isolation between users *)

Lemma same_id_same_playlist (l : list Playlist.t) (p q : Playlist.t) :
  NoDup (map Playlist.id l) -> In p l -> In q l ->
  Playlist.id p = Playlist.id q -> p = q.
Proof.
  induction l as [ | x l IH]; simpl; [ contradiction | ].
  intros Hnodup Hp Hq Hid.
  inversion Hnodup as [ | k ks Hnotin Hrest ]; subst.
  destruct Hp as [-> | Hp], Hq as [-> | Hq]; auto.
  - exfalso. apply Hnotin. rewrite Hid. now apply in_map.
  - exfalso. apply Hnotin. rewrite <- Hid. now apply in_map.
Qed.

Lemma same_views_tables (who : Jwt.claims) (db db' : DB) :
  playlists db' = playlists db ->
  (forall p, In p (playlists db) -> Playlist.user_id p = Jwt.id who ->
             Sql.select_song_paths db' (Playlist.id p)
             = Sql.select_song_paths db (Playlist.id p)) ->
  same_views who db db'.
Proof.
  intros Hlists Hpaths. split.
  - unfold get_playlists, Sql.select_playlists_with_count. simpl.
    rewrite Hlists. do 3 f_equal. f_equal. f_equal. apply owned_rows_ext.
    intros p Hp. apply filter_In in Hp. destruct Hp as [Hin Hb].
    apply Z.eqb_eq in Hb. rewrite !song_count_paths. now rewrite Hpaths.
  - intros id. unfold get_playlist_songs.
    assert (Hsel : Sql.select_owned_playlist db' id (Jwt.id who)
                   = Sql.select_owned_playlist db id (Jwt.id who)).
    { destruct id; simpl; [ now rewrite Hlists | reflexivity ]. }
    rewrite Hsel.
    destruct (Sql.select_owned_playlist db id (Jwt.id who)) as [p | ] eqn:Hp;
      [ | reflexivity ].
    apply select_owned_some in Hp. destruct Hp as (Hin & _ & Huid).
    simpl. now rewrite Hpaths.
Qed.

Lemma change_same_views (fk : bool) (actor : option Z) (who : Jwt.claims)
      (db db' : DB) :
  change fk actor db db' ->
  NoDup (map Playlist.id (playlists db)) ->
  actor <> Some (Jwt.id who) ->
  same_views who db db'.
Proof.
  intros Hchange Hkey Hother.
  destruct Hchange as [ | n m h ts db' Hins
                        | uid n ts db' rowid Hwho Hins
                        | uid p path ts Hwho Hin Hown
                        | uid p path Hwho Hin Hown ].
  - now apply same_views_tables.
  - apply insert_user_inv in Hins. destruct Hins as [_ ->].
    now apply same_views_tables.
  - apply insert_playlist_inv in Hins. destruct Hins as (_ & _ & ->).
    assert (Hnot : (uid =? Jwt.id who) = false)
      by (apply Z.eqb_neq; congruence).
    split.
    + unfold get_playlists, Sql.select_playlists_with_count. simpl.
      rewrite filter_app. simpl. rewrite Hnot, app_nil_r. reflexivity.
    + intros id. unfold get_playlist_songs.
      assert (Hsel : Sql.select_owned_playlist
                       (mkDB (users db)
                             (playlists db ++ [Playlist.mk rowid n uid ts])
                             (playlist_songs db) (users_seq db) rowid)
                       id (Jwt.id who)
                     = Sql.select_owned_playlist db id (Jwt.id who)).
      { destruct id; simpl; [ | reflexivity ].
        apply find_snoc_false. simpl. rewrite Hnot. apply andb_false_r. }
      rewrite Hsel.
      destruct (Sql.select_owned_playlist db id (Jwt.id who)); reflexivity.
  - apply same_views_tables.
    + apply insert_song_frame.
    + intros q Hq Hmine. rewrite paths_after_add.
      destruct (Z.eqb_spec (Playlist.id p) (Playlist.id q)) as [Hid | ];
        [ | reflexivity ].
      apply (same_id_same_playlist _ _ _ Hkey Hin Hq) in Hid. subst q.
      congruence.
  - apply same_views_tables; [ reflexivity | ].
    intros q Hq Hmine. rewrite paths_after_remove.
    destruct (Z.eqb_spec (Playlist.id p) (Playlist.id q)) as [Hid | ];
      [ | reflexivity ].
    apply (same_id_same_playlist _ _ _ Hkey Hin Hq) in Hid. subst q.
    congruence.
Qed.

Lemma read_only_login (secret : string) (production : bool) (db : DB)
      (e : env) (email password : option string) :
  fst (post_login secret production db e email password) = db.
Proof. unfold post_login. split_handler; reflexivity. Qed.

Lemma unguarded_same_views (secret : string) (production fk : bool)
      (db : DB) (e : env) (c : option Jwt.token) (req : request)
      (who : Jwt.claims) :
  guarded_route req = false ->
  same_views who db (fst (handle secret production fk db e c req)).
Proof.
  destruct req; simpl; try discriminate; intros _.
  - unfold post_register.
    destruct (Bcrypt.hash password 10 (salt e)) as [h | ]; simpl;
      [ | now apply same_views_tables ].
    destruct nombre as [n | ], email as [m | ]; simpl;
      try now apply same_views_tables.
    destruct (Sql.insert_user db n m h (timestamp e)) as [db' | ] eqn:Hins;
      simpl; [ | now apply same_views_tables ].
    apply insert_user_inv in Hins. destruct Hins as [_ ->].
    now apply same_views_tables.
  - rewrite (read_only_login secret production db e email password).
    now apply same_views_tables.
  - now apply same_views_tables.
Qed.

(** X12. A request that is not served for user [who] -- an unguarded
    route, an unauthenticated request, or a request of another user --
    changes nothing of what [who] reads: the answer to [listPlaylists]
    and the answer to [listSongs] for every id stay the same. Playlist
    ids are assumed unique, as in every reachable database. *)
Theorem other_users_unaffected
        (secret : string) (production fk : bool) (db : DB) (e : env)
        (c : option Jwt.token) (req : request) (who : Jwt.claims) :
  NoDup (map Playlist.id (playlists db)) ->
  (guarded_route req = true ->
   actor secret c (now e) <> Some (Jwt.id who)) ->
  same_views who db (fst (handle secret production fk db e c req)).
Proof.
  intros Hkey Hother.
  destruct (guarded_route req) eqn:Hroute.
  - eapply change_same_views; [ apply handle_change | exact Hkey | auto ].
  - now apply unguarded_same_views.
Qed.

(** Bob creates a playlist next to Ana's: Ana's list is as before. *)
Lemma other_users_unaffected_witness :
  snd (get_playlists
         (fst (handle dev_secret false false sample_db noon
                      (Some (Jwt.Signed dev_secret bob_session))
                      (PostPlaylists (Some "Rap 90s"))))
         ana_session)
  = snd (get_playlists sample_db ana_session)
  /\ List.length
       (playlists
          (fst (handle dev_secret false false sample_db noon
                       (Some (Jwt.Signed dev_secret bob_session))
                       (PostPlaylists (Some "Rap 90s")))))
     = 2%nat.
Proof.
  split; [ | reflexivity ].
  apply (other_users_unaffected dev_secret false false sample_db noon
           (Some (Jwt.Signed dev_secret bob_session))
           (PostPlaylists (Some "Rap 90s")) ana_session).
  - simpl. constructor; [ intros [] | constructor ].
  - intros _. vm_compute. discriminate.
Defined.

(** ** The in-memory store *)

Lemma assoc_set_same (k : string) (v : json) (fields : list (string * json)) :
  assoc k (Memory.set_field k v fields) = Some v.
Proof.
  induction fields as [ | [k' v'] rest IH]; simpl.
  - now rewrite String.eqb_refl.
  - destruct (String.eqb k k') eqn:Hk; simpl; rewrite ?String.eqb_refl; auto.
    now rewrite Hk.
Qed.

Lemma assoc_set_other (k k' : string) (v : json)
      (fields : list (string * json)) :
  k' <> k -> assoc k' (Memory.set_field k v fields) = assoc k' fields.
Proof.
  intros Hne. apply String.eqb_neq in Hne.
  induction fields as [ | [k0 v0] rest IH]; simpl.
  - now rewrite Hne.
  - destruct (String.eqb_spec k k0) as [<- | Hk]; simpl.
    + now rewrite Hne.
    + destruct (String.eqb k' k0); auto.
Qed.

(** X13. [createUser] followed by [findUserByEmail]: when the store has
    no user with the email of [userData], the lookup finds the user just
    created. That user is appended to [db.users], carries the clock as
    [id] and as [created_at] -- also when [userData] had such fields --
    and every other field of [userData] unchanged. *)
Theorem created_user_found
        (d : Memory.t) (userData : list (string * json)) (now : Z)
        (iso email : string) :
  assoc "email" userData = Some (JStr email) ->
  Memory.findUserByEmail d email = None ->
  let d' := fst (Memory.createUser d userData now iso) in
  let user := snd (Memory.createUser d userData now iso) in
  Memory.findUserByEmail d' email = Some user
  /\ Memory.users d' = (Memory.users d ++ [user])%list
  /\ get "id" user = Some (JNum now)
  /\ get "created_at" user = Some (JStr iso)
  /\ forall k, k <> "id" -> k <> "created_at" ->
               get k user = assoc k userData.
Proof.
  intros Hmail Hnone. unfold Memory.createUser. cbn [fst snd].
  set (user := JObj (Memory.set_field "created_at" (JStr iso)
                       (Memory.set_field "id" (JNum now) userData))).
  assert (Hother : forall k, k <> "id" -> k <> "created_at" ->
                             get k user = assoc k userData).
  { intros k Hid Hat. unfold user. simpl.
    now rewrite assoc_set_other, assoc_set_other. }
  repeat split; auto.
  - unfold Memory.findUserByEmail in *. simpl.
    rewrite (find_snoc_none _ _ _ Hnone). unfold Memory.has_email.
    rewrite Hother, Hmail by discriminate. now rewrite String.eqb_refl.
  - unfold user. simpl.
    rewrite assoc_set_other by discriminate. apply assoc_set_same.
  - unfold user. simpl. apply assoc_set_same.
Qed.

(** The first user of an empty store; the [id] the caller sent is
    replaced by the clock. *)
Lemma created_user_found_witness :
  let data := [("nombre", JStr "Ana"); ("id", JNum 7);
               ("email", JStr "ana@x.com")] in
  Memory.findUserByEmail
    (fst (Memory.createUser Memory.db data 1704110400000
                            "2024-01-01T12:00:00.000Z"))
    "ana@x.com"
  = Some (JObj [("nombre", JStr "Ana"); ("id", JNum 1704110400000);
                ("email", JStr "ana@x.com");
                ("created_at", JStr "2024-01-01T12:00:00.000Z")]).
Proof.
  intros data.
  destruct (created_user_found Memory.db data 1704110400000
              "2024-01-01T12:00:00.000Z" "ana@x.com") as [Hfound _].
  - reflexivity.
  - reflexivity.
  - exact Hfound.
Defined.

(** X14. [createUser] never refuses: with a user of that email already
    stored it still appends the new one, so two users with the email
    are stored, and [findUserByEmail] keeps answering the earlier. *)
Theorem create_user_keeps_duplicates
        (d : Memory.t) (userData : list (string * json)) (now : Z)
        (iso email : string) (first : json) :
  assoc "email" userData = Some (JStr email) ->
  Memory.findUserByEmail d email = Some first ->
  let d' := fst (Memory.createUser d userData now iso) in
  Memory.findUserByEmail d' email = Some first
  /\ List.length (Memory.users d') = S (List.length (Memory.users d))
  /\ (2 <= List.length (filter (Memory.has_email email) (Memory.users d')))%nat.
Proof.
  intros Hmail Hfirst. unfold Memory.createUser, Memory.findUserByEmail in *.
  cbn [fst snd Memory.users]. split; [ | split ].
  - induction (Memory.users d) as [ | u us IH]; simpl in *; [ discriminate | ].
    destruct (Memory.has_email email u); auto.
  - rewrite length_app. simpl. lia.
  - rewrite filter_app, length_app. simpl.
    assert (Hnew : Memory.has_email email
                     (JObj (Memory.set_field "created_at" (JStr iso)
                              (Memory.set_field "id" (JNum now) userData)))
                   = true).
    { unfold Memory.has_email. simpl.
      rewrite assoc_set_other, assoc_set_other, Hmail by discriminate.
      apply String.eqb_refl. }
    rewrite Hnew. simpl.
    apply find_some in Hfirst. destruct Hfirst as [Hin Hb].
    assert (Hold : In first (filter (Memory.has_email email) (Memory.users d)))
      by (apply filter_In; auto).
    destruct (filter (Memory.has_email email) (Memory.users d));
      [ contradiction | simpl; lia ].
Qed.

(** Ana's email, created twice in the same millisecond. *)
Lemma create_user_keeps_duplicates_witness :
  let data := [("email", JStr "ana@x.com")] in
  let d1 := fst (Memory.createUser Memory.db data 5 "t") in
  let d2 := fst (Memory.createUser d1 data 5 "t") in
  List.length (Memory.users d2) = 2%nat
  /\ (2 <= List.length (filter (Memory.has_email "ana@x.com")
                               (Memory.users d2)))%nat.
Proof.
  intros data d1 d2.
  destruct (create_user_keeps_duplicates d1 data 5 "t" "ana@x.com"
              (snd (Memory.createUser Memory.db data 5 "t")))
    as (_ & Hlen & Htwo).
  - reflexivity.
  - reflexivity.
  - split; [ exact Hlen | exact Htwo ].
Defined.

(** ** The client: the login form *)

(** X15. Submitting the form in its register mode never logs the
    visitor in: whatever the server answers, the [user] state of a
    visitor who was not logged in stays empty and the cookie jar stays
    as it was -- also when the registration succeeded, because the 201
    answer carries no [user] field. *)
Theorem register_form_does_not_log_in
        (secret : string) (production fk : bool) (form : Auth.formData)
        (db : DB) (e : env) (jar : option Jwt.token) :
  let result :=
    Auth.handleSubmit secret production fk false form db e jar None in
  snd result = None /\ snd (fst result) = jar.
Proof.
  unfold Auth.handleSubmit, Auth.submitted. simpl. unfold post_register.
  simpl.
  destruct (Sql.insert_user db (Auth.nombre form) (Auth.email form) _ _);
    simpl; auto.
Qed.



(** ** The client: the player *)

Lemma at_index_in_range (l : list string) (i : Z) :
  0 <= i < Z.of_nat (List.length l) ->
  exists song, Player.at_index l i = Some song.
Proof.
  intros Hrange. unfold Player.at_index.
  destruct (Z.ltb_spec i 0); [ lia | ].
  destruct (nth_error l (Z.to_nat i)) as [song | ] eqn:Hnth; eauto.
  apply nth_error_None in Hnth. lia.
Qed.

Lemma playSong_nonempty (p : Player.t) (index : Z) :
  Player.canciones p <> [] ->
  Player.playSong p index
  = Player.mk (Player.canciones p) (Player.playlistActiva p)
              (Z.rem (index + Z.of_nat (List.length (Player.canciones p)))
                     (Z.of_nat (List.length (Player.canciones p))))
              true (Player.isShuffle p) (Player.isRepeat p)
              (Player.assigned
                 (Player.at_index
                    (Player.canciones p)
                    (Z.rem (index + Z.of_nat (List.length (Player.canciones p)))
                           (Z.of_nat (List.length (Player.canciones p)))))).
Proof.
  intros Hsome. unfold Player.playSong.
  destruct (Player.canciones p) as [ | x l]; [ contradiction | ].
  reflexivity.
Qed.

(** X17. [playSong] on a non-empty list with an index not below minus
    the length of the list: the new current index is the index modulo
    the length, hence inside the list, the audio source is the song at
    that index, and the player is playing. On an empty list [playSong]
    changes nothing. *)
Theorem playSong_in_range (p : Player.t) (index : Z) :
  let length := Z.of_nat (List.length (Player.canciones p)) in
  let q := Player.playSong p index in
  (Player.canciones p = [] -> q = p)
  /\ (Player.canciones p <> [] ->
      - length <= index ->
      0 <= Player.currentIndex q < length
      /\ Player.currentIndex q = (index mod length)
      /\ (exists song,
            Player.at_index (Player.canciones p) (Player.currentIndex q)
            = Some song
            /\ Player.src q = Player.Url song)
      /\ Player.isPlaying q = true
      /\ Player.canciones q = Player.canciones p).
Proof.
  cbv zeta. split.
  - intros Hempty. unfold Player.playSong. now rewrite Hempty.
  - intros Hsome Hindex. rewrite (playSong_nonempty p index Hsome).
    cbn [Player.currentIndex Player.src Player.isPlaying Player.canciones].
    assert (Hlen : 0 < Z.of_nat (List.length (Player.canciones p))).
    { destruct (Player.canciones p); [ contradiction | simpl; lia ]. }
    set (n := Z.of_nat (List.length (Player.canciones p))) in *.
    assert (Hrem : Z.rem (index + n) n = index mod n).
    { rewrite Z.rem_mod_nonneg by lia.
      rewrite <- (Z.mod_add index 1 n) by lia. f_equal. lia. }
    pose proof (Z.mod_pos_bound index n Hlen) as Hbound.
    rewrite Hrem. repeat split; try lia.
    destruct (at_index_in_range (Player.canciones p) (index mod n) Hbound)
      as [song Hsong].
    exists song. now rewrite Hsong.
Qed.

(** Asking for the song before the first plays the last. *)
Lemma playSong_in_range_witness :
  Player.currentIndex (Player.playSong three_songs (-1)) = 2
  /\ Player.src (Player.playSong three_songs (-1))
     = Player.Url "/musica/c.mp3".
Proof.
  destruct (playSong_in_range three_songs (-1)) as [_ Hplay].
  destruct Hplay as (_ & Hindex & (song & Hsong & Hsrc) & _).
  - discriminate.
  - simpl. lia.
  - split; [ exact Hindex | ]. rewrite Hsrc. f_equal.
    rewrite Hindex in Hsong. simpl in Hsong. now inversion Hsong.
Defined.

(** X18. Without shuffle and with the current index inside the list,
    [nextSong] and [prevSong] undo each other, [nextSong] on the last
    song goes to the first and [prevSong] on the first goes to the
    last. *)
Theorem next_prev_inverse (p : Player.t) (randomIndex : Z) :
  let length := Z.of_nat (List.length (Player.canciones p)) in
  Player.isShuffle p = false ->
  0 <= Player.currentIndex p < length ->
  Player.currentIndex (Player.prevSong (Player.nextSong p randomIndex))
  = Player.currentIndex p
  /\ Player.currentIndex (Player.nextSong (Player.prevSong p) randomIndex)
     = Player.currentIndex p
  /\ (Player.currentIndex p = length - 1 ->
      Player.currentIndex (Player.nextSong p randomIndex) = 0)
  /\ (Player.currentIndex p = 0 ->
      Player.currentIndex (Player.prevSong p) = length - 1).
Proof.
  cbv zeta. intros Hshuffle Hrange.
  assert (Hsome : Player.canciones p <> []).
  { intros Hempty. rewrite Hempty in Hrange. simpl in Hrange. lia. }
  unfold Player.nextSong, Player.prevSong. rewrite Hshuffle.
  rewrite !(playSong_nonempty p _ Hsome).
  cbn [Player.isShuffle Player.currentIndex Player.canciones].
  rewrite Hshuffle.
  set (n := Z.of_nat (List.length (Player.canciones p))) in *.
  set (i := Player.currentIndex p) in *.
  assert (Hnext : Z.rem (i + 1 + n) n = if i + 1 =? n then 0 else i + 1).
  { destruct (Z.eqb_spec (i + 1) n) as [Heq | Hne].
    - replace (i + 1 + n) with (2 * n) by lia.
      apply Z.rem_mul. lia.
    - rewrite Z.rem_mod_nonneg by lia.
      replace (i + 1 + n) with (i + 1 + 1 * n) by lia.
      rewrite Z.mod_add by lia.
      apply Z.mod_small. lia. }
  assert (Hprev : Z.rem (i - 1 + n) n = if i =? 0 then n - 1 else i - 1).
  { destruct (Z.eqb_spec i 0) as [Heq | Hne].
    - rewrite Heq. replace (0 - 1 + n) with (n - 1) by lia.
      apply Z.rem_small. lia.
    - rewrite Z.rem_mod_nonneg by lia.
      replace (i - 1 + n) with (i - 1 + 1 * n) by lia.
      rewrite Z.mod_add by lia.
      apply Z.mod_small. lia. }
  rewrite Hnext, Hprev.
  repeat split.
  - assert (Hq : Player.canciones
                   (Player.mk (Player.canciones p) (Player.playlistActiva p)
                      (if i + 1 =? n then 0 else i + 1) true false
                      (Player.isRepeat p)
                      (Player.assigned
                         (Player.at_index (Player.canciones p)
                            (if i + 1 =? n then 0 else i + 1)))) <> [])
      by exact Hsome.
    rewrite (playSong_nonempty _ _ Hq).
    cbn [Player.currentIndex Player.canciones]. fold n.
    destruct (Z.eqb_spec (i + 1) n) as [Heq | Hne].
    + replace (0 - 1 + n) with (n - 1) by lia.
      rewrite Z.rem_small by lia. lia.
    + replace (i + 1 - 1 + n) with (i + n) by lia.
      rewrite Z.rem_mod_nonneg by lia.
      replace (i + n) with (i + 1 * n) by lia.
      rewrite Z.mod_add by lia.
      apply Z.mod_small. lia.
  - assert (Hq : Player.canciones
                   (Player.mk (Player.canciones p) (Player.playlistActiva p)
                      (if i =? 0 then n - 1 else i - 1) true false
                      (Player.isRepeat p)
                      (Player.assigned
                         (Player.at_index (Player.canciones p)
                            (if i =? 0 then n - 1 else i - 1)))) <> [])
      by exact Hsome.
    rewrite (playSong_nonempty _ _ Hq).
    cbn [Player.currentIndex Player.canciones]. fold n.
    destruct (Z.eqb_spec i 0) as [Heq | Hne].
    + replace (n - 1 + 1 + n) with (2 * n) by lia.
      rewrite Z.rem_mul by lia. lia.
    + replace (i - 1 + 1 + n) with (i + n) by lia.
      rewrite Z.rem_mod_nonneg by lia.
      replace (i + n) with (i + 1 * n) by lia.
      rewrite Z.mod_add by lia.
      apply Z.mod_small. lia.
  - intros Hlast. destruct (Z.eqb_spec (i + 1) n); lia.
  - intros Hfirst. destruct (Z.eqb_spec i 0); lia.
Qed.

(** From the second of three songs. *)
Lemma next_prev_inverse_witness :
  Player.currentIndex (Player.prevSong (Player.nextSong three_songs 0)) = 1
  /\ Player.currentIndex (Player.nextSong (Player.prevSong three_songs) 0) = 1.
Proof.
  destruct (next_prev_inverse three_songs 0) as (Hnp & Hpn & _).
  - reflexivity.
  - simpl. lia.
  - split; [ exact Hnp | exact Hpn ].
Defined.

(** X19. The click on a playlist stores the new list but starts the
    song from the list of the render it was drawn in: with no list
    loaded before, nothing starts playing and the audio source is not
    touched; with a list loaded before, the audio source is the first
    song of that earlier list. *)
Theorem select_plays_previous_list
        (p : Player.t) (nombre : string) (lista : list string) :
  let q := Player.select p nombre lista 0 in
  Player.canciones q = lista
  /\ Player.playlistActiva q = Some nombre
  /\ (Player.canciones p = [] ->
      Player.src q = Player.src p
      /\ Player.isPlaying q = Player.isPlaying p
      /\ Player.currentIndex q = Player.currentIndex p)
  /\ (forall first rest,
        Player.canciones p = (first :: rest)%list ->
        Player.src q = Player.Url first
        /\ Player.isPlaying q = true
        /\ Player.currentIndex q = 0).
Proof.
  cbv zeta. unfold Player.select. simpl.
  split; [ reflexivity | ]. split; [ reflexivity | ]. split.
  - intros Hempty. unfold Player.playSong. rewrite Hempty. simpl. auto.
  - intros first rest Hloaded.
    assert (Hsome : Player.canciones p <> [])
      by (rewrite Hloaded; discriminate).
    rewrite (playSong_nonempty p 0 Hsome).
    cbn [Player.src Player.isPlaying Player.currentIndex].
    rewrite Hloaded. simpl Z.add.
    rewrite Z.rem_same by (simpl; lia). auto.
Qed.

(** The first click after the page loads. *)
Lemma select_plays_previous_list_witness :
  let q := Player.select Player.initial "Cumbia" ["/musica/a.mp3"] 0 in
  Player.canciones q = ["/musica/a.mp3"]
  /\ Player.src q = Player.Unset
  /\ Player.isPlaying q = false.
Proof.
  destruct (select_plays_previous_list Player.initial "Cumbia"
                                       ["/musica/a.mp3"])
    as (Hlist & _ & Hempty & _).
  destruct Hempty as (Hsrc & Hplaying & _); [ reflexivity | ].
  split; [ exact Hlist | ]. split; [ exact Hsrc | exact Hplaying ].
Defined.

(** ** Song counts *)

Lemma filter_out_length (l : list string) (path : string) :
  (List.length (filter (fun q => negb (String.eqb q path)) l)
   + count_occ string_dec l path = List.length l)%nat.
Proof.
  induction l as [ | q l IH]; simpl; auto.
  destruct (string_dec q path) as [Heq | Hne].
  - apply String.eqb_eq in Heq. rewrite Heq. simpl. lia.
  - apply String.eqb_neq in Hne. rewrite Hne. simpl. lia.
Qed.

(** X20. The [song_count] that [listPlaylists] reports follows the
    changes: [addSong] raises the count of the playlist by one when the
    path is new and leaves it when the path is there; under the primary
    key [removeSong] lowers it by one when the path is there and leaves
    it when not; the counts of all other playlists stay as they are. *)
Theorem song_count_follows
        (db : DB) (e : env) (user : Jwt.claims) (id : route_id)
        (path : string) :
  owns db (Jwt.id user) id ->
  let added := fst (post_playlist_songs db e user id (Some path)) in
  let removed := fst (delete_playlist_song db user id path) in
  exists pid,
    id = IdInt pid
    /\ (In path (Sql.select_song_paths db pid) ->
        Sql.song_count added pid = Sql.song_count db pid
        /\ (song_key_unique db ->
            Sql.song_count removed pid = Sql.song_count db pid - 1))
    /\ (~ In path (Sql.select_song_paths db pid) ->
        Sql.song_count added pid = Sql.song_count db pid + 1
        /\ Sql.song_count removed pid = Sql.song_count db pid)
    /\ (forall other, other <> pid ->
                      Sql.song_count added other = Sql.song_count db other
                      /\ Sql.song_count removed other
                         = Sql.song_count db other).
Proof.
  intros Hown. destruct (select_owned_owns _ _ _ Hown) as [p Hsel].
  destruct (select_owned_some _ _ _ _ Hsel) as (Hin & Hid & Huid).
  unfold post_playlist_songs, delete_playlist_song. rewrite Hsel.
  cbn [fst snd]. exists (Playlist.id p). split; [ exact Hid | ].
  rewrite !song_count_paths.
  split; [ | split ].
  - intros Hold. rewrite paths_after_add, Z.eqb_refl.
    split.
    + apply listed_iff_member in Hold. now rewrite Hold.
    + intros Hpk. rewrite paths_after_remove, Z.eqb_refl.
      pose proof (filter_out_length
                    (Sql.select_song_paths db (Playlist.id p)) path) as Hlen.
      assert (Hone : count_occ string_dec
                       (Sql.select_song_paths db (Playlist.id p)) path = 1%nat).
      { apply (count_occ_In string_dec) in Hold.
        pose proof (proj1 (NoDup_count_occ string_dec _)
                          (paths_nodup db (Playlist.id p) Hpk) path).
        lia. }
      lia.
  - intros Hnew. rewrite paths_after_add, Z.eqb_refl.
    rewrite paths_after_remove, Z.eqb_refl. split.
    + destruct (existsb _ (playlist_songs db)) eqn:Hex.
      * apply listed_iff_member in Hex. contradiction.
      * simpl. rewrite (Permutation_length (insert_path_perm path _)).
        simpl. lia.
    + pose proof (filter_out_length
                    (Sql.select_song_paths db (Playlist.id p)) path) as Hlen.
      apply (count_occ_not_In string_dec) in Hnew. lia.
  - intros other Hother.
    rewrite !song_count_paths, paths_after_add, paths_after_remove.
    destruct (Z.eqb_spec (Playlist.id p) other); [ congruence | ].
    simpl. auto.
Qed.

(** Ana adds a second song: two songs; she removes the first: none. *)
Lemma song_count_follows_witness :
  Sql.song_count
    (fst (post_playlist_songs sample_db noon ana_session (IdInt 1)
                              (Some "/musica/b.mp3"))) 1 = 2
  /\ Sql.song_count
       (fst (delete_playlist_song sample_db ana_session (IdInt 1)
                                  "/musica/b.mp3")) 1 = 1.
Proof.
  destruct (song_count_follows sample_db noon ana_session (IdInt 1)
                               "/musica/b.mp3")
    as (pid & Hid & _ & Hnew & _).
  - exists road_trip. simpl. auto.
  - inversion Hid. subst pid. destruct Hnew as [Hadd Hrem].
    + intros [Heq | []]. discriminate.
    + rewrite Hadd, Hrem. split; reflexivity.
Defined.

(** ** The client: local songs and the chat *)

Lemma drawn_position {A : Type} (f : A -> bool) (l : list A) :
  forall (k : nat) (c : A),
    nth_error (filter f l) k = Some c ->
    exists j,
      nth_error l j = Some c
      /\ (forallb f (firstn (S k) l) = true -> j = k)
      /\ (forallb f (firstn (S k) l) = false -> (k < j)%nat).
Proof.
  induction l as [ | a l IH]; intros k c Hdrawn.
  - destruct k; discriminate.
  - cbn [filter] in Hdrawn. cbn [firstn forallb].
    destruct (f a) eqn:Hfa; cbn [andb].
    + destruct k as [ | k]; cbn [nth_error] in Hdrawn.
      * inversion Hdrawn. subst. exists 0%nat.
        split; [ reflexivity | ]. split; [ reflexivity | ].
        cbn [firstn forallb]. discriminate.
      * destruct (IH k c Hdrawn) as (j & Hj & Hsame & Hlater).
        exists (S j). split; [ exact Hj | ]. split.
        -- intros Hall. f_equal. now apply Hsame.
        -- intros Hsome. apply Hlater in Hsome. lia.
    + destruct (IH k c Hdrawn) as (j & Hj & Hsame & Hlater).
      exists (S j). split; [ exact Hj | ]. split; [ discriminate | ].
      intros _.
      destruct (forallb f (firstn (S k) l)) eqn:Hall;
        [ rewrite (Hsame eq_refl) | specialize (Hlater eq_refl) ]; lia.
Qed.

Lemma without_split {A : Type} (l : list A) :
  forall k, Locales.without l k = (firstn k l ++ skipn (S k) l)%list.
Proof.
  induction l as [ | a l IH]; intros [ | k]; simpl; auto.
  now rewrite IH.
Qed.

Lemma without_keeps_later {A : Type} (l : list A) :
  forall (k j : nat) (c : A),
    (k < j)%nat -> nth_error l j = Some c -> In c (Locales.without l k).
Proof.
  induction l as [ | a l IH]; intros k j c Hlater Hj.
  - destruct j; discriminate.
  - destruct j as [ | j]; [ lia | ]. simpl in Hj.
    destruct k as [ | k]; simpl.
    + eapply nth_error_In; eauto.
    + right. apply (IH k j); auto. lia.
Qed.

(** X21. The bin button deletes by the position of the row in the list
    as drawn, applied to the whole list. It deletes the song of the row
    when every song up to that position passes the search filter; when
    one of them is hidden by the filter, it deletes another song and the
    song of the row stays in the list. *)
Theorem eliminar_by_drawn_index
        (visible : Locales.cancion -> bool)
        (cancionesLocales : list Locales.cancion)
        (index : nat) (clicked : Locales.cancion) :
  nth_error (Locales.shown visible cancionesLocales) index = Some clicked ->
  exists removed,
    nth_error cancionesLocales index = Some removed
    /\ Locales.eliminar cancionesLocales index
       = (firstn index cancionesLocales
          ++ skipn (S index) cancionesLocales)%list
    /\ (forallb visible (firstn (S index) cancionesLocales) = true ->
        removed = clicked)
    /\ (forallb visible (firstn (S index) cancionesLocales) = false ->
        In clicked (Locales.eliminar cancionesLocales index)).
Proof.
  unfold Locales.shown, Locales.eliminar. intros Hdrawn.
  destruct (drawn_position visible cancionesLocales index clicked Hdrawn)
    as (j & Hj & Hsame & Hlater).
  assert (Hle : (index <= j)%nat).
  { destruct (forallb visible (firstn (S index) cancionesLocales));
      [ rewrite (Hsame eq_refl) | specialize (Hlater eq_refl) ]; lia. }
  destruct (nth_error cancionesLocales index) as [removed | ] eqn:Hindex.
  - exists removed. split; [ reflexivity | ].
    split; [ apply without_split | ]. split.
    + intros Hall. rewrite (Hsame Hall) in Hj. congruence.
    + intros Hhidden. apply (without_keeps_later _ index j); auto.
  - apply nth_error_None in Hindex.
    assert (j < List.length cancionesLocales)%nat
      by (apply nth_error_Some; congruence).
    lia.
Qed.

(** Two uploads; the search hides the first; the bin of the only row
    drawn deletes the hidden one. *)
Lemma eliminar_by_drawn_index_witness :
  let a := Locales.mk "a.mp3" "blob:a" in
  let b := Locales.mk "b.mp3" "blob:b" in
  let visible c := String.eqb (Locales.nombre c) "b.mp3" in
  Locales.shown visible [a; b] = [b]
  /\ In b (Locales.eliminar [a; b] 0)
  /\ Locales.eliminar [a; b] 0 = [b].
Proof.
  intros a b visible.
  destruct (eliminar_by_drawn_index visible [a; b] 0 b)
    as (removed & _ & Hlist & _ & Hstays).
  - reflexivity.
  - split; [ reflexivity | ]. split; [ now apply Hstays | exact Hlist ].
Defined.

(** X22. The two chats are not kept apart: the messages drawn for
    "Pipi" and for "Lucho" are the same list, so a message entered in
    one chat is drawn in the other as well, there as a message of the
    other side. *)
Theorem chats_share_messages
        (messages : list Chat.msg) (trimmed a b : string) :
  a = "Pipi" \/ a = "Lucho" ->
  b = "Pipi" \/ b = "Lucho" ->
  Chat.shown (Some a) messages = Chat.shown (Some b) messages
  /\ (trimmed <> "" ->
      In (Chat.mk a trimmed)
         (Chat.shown (Some b) (Chat.enter a messages trimmed)))
  /\ (a <> b -> Chat.own (Some b) (Chat.mk a trimmed) = false).
Proof.
  intros Ha Hb. split; [ | split ].
  - destruct Ha as [-> | ->], Hb as [-> | ->]; unfold Chat.shown; simpl;
      apply filter_ext; intros m;
      destruct (String.eqb (Chat.sender m) "Pipi"),
               (String.eqb (Chat.sender m) "Lucho"); reflexivity.
  - intros Htext. apply String.eqb_neq in Htext.
    unfold Chat.enter. rewrite Htext. unfold Chat.shown.
    rewrite filter_app. apply in_or_app. right.
    destruct Ha as [-> | ->], Hb as [-> | ->]; simpl; auto.
  - intros Hne. simpl. now apply String.eqb_neq.
Qed.

(** A message typed to Pipi shows up in the chat with Lucho. *)
Lemma chats_share_messages_witness :
  Chat.shown (Some "Lucho") (Chat.enter "Pipi" [] "hola")
  = [Chat.mk "Pipi" "hola"]
  /\ In (Chat.mk "Pipi" "hola")
        (Chat.shown (Some "Lucho") (Chat.enter "Pipi" [] "hola")).
Proof.
  destruct (chats_share_messages [] "hola" "Pipi" "Lucho")
    as (_ & Hdrawn & _); auto.
  split; [ reflexivity | ]. apply Hdrawn. discriminate.
Defined.
